(** * connectivity-exporter: the user-space aggregator of [packet/packet.go]

    A shallow embedding of [TrackConnections], [getOldestStatsAndCleanup],
    [isConnectionOld], [accountForConnections] and [deleteExpiredSNIs].

    Conventions.
    - Go's [uint64] and [uint32] values are integers of [Z]; every
      operation that can wrap has its reduction written out ([u64], [u32]).
    - A Go [string] and a [[]byte] are sequences of octets: [string] of
      Rocq, and [list Z] with entries in [0, 256).
    - Go maps and the eBPF hash maps are [gmap]s, Go sets [gset]s.  Go does
      not fix the order of [range] over a map; the model iterates in the
      order of [map_to_list] / [elements], about which nothing is assumed.
    - [time.Time] is an integer instant, [Add] is [+] and [Before] is [<].
    - What the goroutine does to the outside world (error logs, [Inc]
      messages sent on the channel, metric deletions, the write of the
      ticker clock) is recorded as a list of [event]s, oldest first.
    - A run-time panic, a skipped tick ([continue]) and a completed tick
      are the constructors of [outcome]. *)

From Stdlib Require Import ZArith Ascii String List Lia.
From stdpp Require Import base decidable countable gmap strings list fin_maps fin_sets.

Local Open Scope string_scope.
Local Open Scope list_scope.
Local Open Scope Z_scope.

(** ** Machine integers *)

Definition u64 (z : Z) : Z := z mod 2 ^ 64.
Definition u32 (z : Z) : Z := z mod 2 ^ 32.

(** [C.STATS_SECONDS_COUNT], the number of slots of the rotating stats
    table (declared in [c/types.h]; its value is the 20 of [statsKey]). *)
Definition STATS_SECONDS_COUNT : Z := 20.

(** ** Data model *)

(** Modelled from the spec: the connection states, whose Go constants are
    declared outside [packet.go]. *)
Inductive conn_state : Type :=
  | NEW
  | SYN_RECEIVED
  | SYNACK_RECEIVED
  | SNI_RECEIVED
  | RST_SENT_BY_SERVER
  | RST_SENT_BY_CLIENT
  | FIN_SENT.

Global Instance conn_state_eq_dec : EqDecision conn_state.
Proof. solve_decision. Defined.

(** Modelled from the spec: [C.struct_tuple_key_t] of [c/types.h]; the Go
    code reads [source_ip] and [dest_ip] only. *)
Record tuple_key_t : Type := TupleKey {
  source_ip : Z;
  dest_ip : Z;
  source_port : Z;
  dest_port : Z
}.

Global Instance tuple_key_eq_dec : EqDecision tuple_key_t.
Proof. solve_decision. Defined.

Definition tuple_key_enc (k : tuple_key_t) : Z * Z * Z * Z :=
  (source_ip k, dest_ip k, source_port k, dest_port k).

Definition tuple_key_dec (t : Z * Z * Z * Z) : tuple_key_t :=
  let '(a, b, c, d) := t in TupleKey a b c d.

Global Instance tuple_key_countable : Countable tuple_key_t.
Proof. refine (inj_countable' tuple_key_enc tuple_key_dec _). by intros []. Defined.

(** The Go view of a connection entry ([tupleData], the result of
    [tupleDataFromC]). *)
Record tupleData : Type := TupleData {
  tickerClockFirstPacket : Z;
  sni : string;
  state : conn_state
}.

(** [ConnKey]; its [sni] field is [connSNI] here, [sni] being taken by
    [tupleData]. *)
Record ConnKey : Type := MkConnKey {
  sourceIP : string;
  destIP : string;
  connSNI : string
}.

Global Instance ConnKey_eq_dec : EqDecision ConnKey.
Proof. solve_decision. Defined.

Definition ConnKey_enc (k : ConnKey) : string * string * string :=
  (sourceIP k, destIP k, connSNI k).

Definition ConnKey_dec (t : string * string * string) : ConnKey :=
  let '(a, b, c) := t in MkConnKey a b c.

Global Instance ConnKey_countable : Countable ConnKey.
Proof. refine (inj_countable' ConnKey_enc ConnKey_dec _). by intros []. Defined.

(** Modelled from the spec: [metrics.Inc] of package [m/metrics].  Its
    counters are floating-point in Go (see the two [float64] conversions of
    [accountForConnections]); they only ever hold counts, which [float64]
    represents exactly below [2^53], and are integers here. *)
Record Inc : Type := MkInc {
  SNI : string;
  SourceIP : string;
  DestIP : string;
  SuccessfulConnections : Z;
  RejectedConnections : Z;
  RejectedConnectionsByClient : Z;
  ActiveFailedSeconds : Z;
  ActiveSeconds : Z;
  FailedSeconds : Z
}.

(** [State], the aggregator's record of known SNIs. *)
Record State : Type := MkState {
  snis : gmap string Z
}.

Definition newState : State := MkState ∅.

(** What a tick does to the outside world. *)
Inductive event : Type :=
  | LogError (msg : string)
  | SendInc (i : Inc)
  | DeleteMetrics (name : string)
  | PutTickerClock (v : Z).

(** ** [net.IP] and [encoding/binary] *)

(** [binary.LittleEndian.PutUint32 b v]: Go first evaluates [b[3]], which
    panics ([None]) on a slice shorter than four octets, and then stores the
    four octets of [v], least significant first. *)
Definition PutUint32 (b : list Z) (v : Z) : option (list Z) :=
  if (Z.of_nat (length b) <? 4)%Z then None
  else Some ([Z.land v 255;
              Z.land (Z.shiftr v 8) 255;
              Z.land (Z.shiftr v 16) 255;
              Z.land (Z.shiftr v 24) 255] ++ drop 4 b).

Definition digit (n : Z) : ascii := ascii_of_N (Z.to_N (48 + n)).

(** Go's [ubtoa]: the decimal form of one octet. *)
Definition ubtoa (v : Z) : string :=
  if (v <? 10)%Z then String (digit v) ""
  else if (v <? 100)%Z then String (digit (v / 10)) (String (digit (v mod 10)) "")
  else String (digit (v / 100))
         (String (digit (v / 10 mod 10)) (String (digit (v mod 10)) "")).

(** [net.IP.String]: ["<nil>"] for the empty slice and dotted decimal for a
    four-octet address.  The sixteen-octet forms and the ["?"]-prefixed
    rendering of malformed lengths are not spelled out (they are ["?"]
    here); the aggregator only ever renders four-octet slices. *)
Definition IP_String (ip : list Z) : string :=
  match ip with
  | [] => "<nil>"
  | [a; b; c; d] => ubtoa a +:+ "." +:+ ubtoa b +:+ "." +:+ ubtoa c +:+ "." +:+ ubtoa d
  | _ => "?"
  end.

(** ** [isConnectionOld] *)

Definition isConnectionOld (tickerClockFirstPacket current_ticker_clock : Z) : bool :=
  (u64 (STATS_SECONDS_COUNT + tickerClockFirstPacket) <? current_ticker_clock)%Z.

(** ** [accountForConnections] *)

Definition newInc (connKey : ConnKey) : Inc :=
  MkInc (connSNI connKey) (sourceIP connKey) (destIP connKey) 0 0 0 0 0 0.

Definition addSuccessfulConnections (n : Z) (i : Inc) : Inc :=
  MkInc (SNI i) (SourceIP i) (DestIP i) (SuccessfulConnections i + n)
    (RejectedConnections i) (RejectedConnectionsByClient i)
    (ActiveFailedSeconds i) (ActiveSeconds i) (FailedSeconds i).

Definition addRejectedConnections (n : Z) (i : Inc) : Inc :=
  MkInc (SNI i) (SourceIP i) (DestIP i) (SuccessfulConnections i)
    (RejectedConnections i + n) (RejectedConnectionsByClient i)
    (ActiveFailedSeconds i) (ActiveSeconds i) (FailedSeconds i).

Definition addRejectedConnectionsByClient (n : Z) (i : Inc) : Inc :=
  MkInc (SNI i) (SourceIP i) (DestIP i) (SuccessfulConnections i)
    (RejectedConnections i) (RejectedConnectionsByClient i + n)
    (ActiveFailedSeconds i) (ActiveSeconds i) (FailedSeconds i).

Definition addActiveFailedSeconds (n : Z) (i : Inc) : Inc :=
  MkInc (SNI i) (SourceIP i) (DestIP i) (SuccessfulConnections i)
    (RejectedConnections i) (RejectedConnectionsByClient i)
    (ActiveFailedSeconds i + n) (ActiveSeconds i) (FailedSeconds i).

Definition addActiveSeconds (n : Z) (i : Inc) : Inc :=
  MkInc (SNI i) (SourceIP i) (DestIP i) (SuccessfulConnections i)
    (RejectedConnections i) (RejectedConnectionsByClient i)
    (ActiveFailedSeconds i) (ActiveSeconds i + n) (FailedSeconds i).

Definition addFailedSeconds (n : Z) (i : Inc) : Inc :=
  MkInc (SNI i) (SourceIP i) (DestIP i) (SuccessfulConnections i)
    (RejectedConnections i) (RejectedConnectionsByClient i)
    (ActiveFailedSeconds i) (ActiveSeconds i) (FailedSeconds i + n).

(** One round of the loop over [staleConnMapInfo]: the four [if]s in the
    order of the source, acting on [inc] and [activeFailedSecond]. *)
Definition accountStale (acc : Inc * bool) (v : tupleData) : Inc * bool :=
  let '(inc, activeFailedSecond) := acc in
  let st := state v in
  let activeFailedSecond :=
    if bool_decide (st = SYN_RECEIVED) || bool_decide (st = SYNACK_RECEIVED)
    then true else activeFailedSecond in
  let inc :=
    if bool_decide (st = SNI_RECEIVED) then addSuccessfulConnections 1 inc else inc in
  let '(inc, activeFailedSecond) :=
    if bool_decide (st = RST_SENT_BY_SERVER)
    then (addRejectedConnections 1 inc, true) else (inc, activeFailedSecond) in
  let inc :=
    if bool_decide (st = RST_SENT_BY_CLIENT)
    then addRejectedConnectionsByClient 1 inc else inc in
  (inc, activeFailedSecond).

(** [now] is the reading [time.Now()] would give; it is stored only when
    the SNI is not yet in [s.snis]. *)
Definition accountForConnections (s : State) (now : Z) (connKey : ConnKey)
    (previousFailedSecond : bool) (staleConnMapInfo : list tupleData)
    (succeeded_connections failed_connections : Z)
    : State * list event * Inc * bool :=
  let logs :=
    if bool_decide (sourceIP connKey = "") then [LogError "source IP is empty"] else [] in
  let s :=
    match snis s !! connSNI connKey with
    | Some _ => s
    | None => MkState (<[connSNI connKey := now]> (snis s))
    end in
  let inc := newInc connKey in
  let '(inc, activeFailedSecond) := foldl accountStale (inc, false) staleConnMapInfo in
  let inc := addSuccessfulConnections succeeded_connections inc in
  let inc := addRejectedConnections failed_connections inc in
  let activeSecond :=
    (0 <? Z.of_nat (length staleConnMapInfo))%Z
    || (0 <? succeeded_connections)%Z || (0 <? failed_connections)%Z in
  let activeFailedSecond :=
    if (0 <? failed_connections)%Z then true else activeFailedSecond in
  let failedSecond :=
    (previousFailedSecond && negb activeSecond) || activeFailedSecond in
  let inc := if activeFailedSecond then addActiveFailedSeconds 1 inc else inc in
  let inc := if activeSecond then addActiveSeconds 1 inc else inc in
  let inc := if failedSecond then addFailedSeconds 1 inc else inc in
  (s, logs, inc, failedSecond).

(** ** The kernel tables, the aggregator's variables and the environment *)

(** The shared eBPF maps ([connectionMap], [statsMap] with its inner maps,
    [tickerClockMap]) and the variables [TrackConnections] keeps across
    ticks ([currentTickerClock], [previousFailedSecond], [state]).  An
    inner stats map is keyed by the raw key octets and holds the pair
    [[2]uint64]. *)
Record world : Type := MkWorld {
  connectionMap : gmap tuple_key_t tupleData;
  statsMap : gmap Z (gmap string (Z * Z));
  tickerClockMap : Z;
  currentTickerClock : Z;
  previousFailedSecond : gmap ConnKey bool;
  aggState : State
}.

(** What one tick cannot decide by itself: which map operations fail, and
    what the wall clock reads.  [stats_iter_err = Some n] makes the
    iteration over the inner stats map fail after [n] entries. *)
Record env : Type := MkEnv {
  connections_err : bool;
  stats_lookup_err : bool;
  stats_iter_err : option nat;
  ticker_put_err : bool;
  now_fold : ConnKey → Z;
  now_expire : Z
}.

Inductive outcome : Type :=
  | Committed
  | ClockPutFailed
  | SkippedConnections
  | SkippedStats
  | Panicked.

(** ** [getOldestStatsAndCleanup] *)

Definition octets (s : string) : list Z :=
  map (λ c, Z.of_N (N_of_ascii c)) (list_ascii_of_string s).

(** [strings.SplitN(s, "\000", 2)[0]]: [s] up to its first NUL octet. *)
Fixpoint before_nul (s : string) : string :=
  match s with
  | EmptyString => EmptyString
  | String c r => if bool_decide (c = zero) then EmptyString else String c (before_nul r)
  end.

(** The [ConnKey] built from an inner key; the slice expressions
    [innerKey[0:4]], [innerKey[4:8]] and [innerKey[8:]] panic ([None]) on a
    key of fewer than eight octets. *)
Definition innerKeyToConnKey (innerKey : string) : option ConnKey :=
  if (Z.of_nat (String.length innerKey) <? 8)%Z then None
  else Some (MkConnKey
               (IP_String (octets (substring 0 4 innerKey)))
               (IP_String (octets (substring 4 4 innerKey)))
               (before_nul (substring 8 (String.length innerKey - 8) innerKey))).

Inductive stats_result : Type :=
  | StatsPanic
  | StatsErr (stats : gmap Z (gmap string (Z * Z)))
  | StatsOk (stats : gmap Z (gmap string (Z * Z))) (out : gmap ConnKey (Z * Z)).

(** The entries the iterator hands out before it stops. *)
Definition innerEntries (e : env) (innerMap : gmap string (Z * Z)) : list (string * (Z * Z)) :=
  match stats_iter_err e with
  | Some n => take n (map_to_list innerMap)
  | None => map_to_list innerMap
  end.

Definition collectInner (entries : list (string * (Z * Z))) : option (gmap ConnKey (Z * Z)) :=
  foldl (λ acc kv, out ← acc; key ← innerKeyToConnKey kv.1; Some (<[key := kv.2]> out))
        (Some ∅) entries.

Definition deleteInner (innerMap : gmap string (Z * Z)) (innerKeysToBeDeleted : list string)
    : gmap string (Z * Z) :=
  foldl (λ m v, delete v m) innerMap innerKeysToBeDeleted.

Definition getOldestStatsAndCleanup (e : env) (stats : gmap Z (gmap string (Z * Z)))
    (statsKey : Z) : stats_result :=
  match (if stats_lookup_err e then None else stats !! statsKey) with
  | None => StatsErr stats
  | Some innerMap =>
      let entries := innerEntries e innerMap in
      match collectInner entries with
      | None => StatsPanic
      | Some out =>
          let stats := <[statsKey := deleteInner innerMap entries.*1]> stats in
          if bool_decide (is_Some (stats_iter_err e)) then StatsErr stats
          else StatsOk stats out
      end
  end.

(** ** [deleteExpiredSNIs] *)

Section Aggregator.

(** [metrics.Expiration], the retention window (a variable of package
    [m/metrics], set from the command line). *)
Variable Expiration : Z.

Definition deleteExpiredSNIs (s : State) (now : Z) : State * list event :=
  foldl (λ acc kv,
           if (kv.2 + Expiration <? now)%Z
           then (MkState (delete kv.1 (snis acc.1)), acc.2 ++ [DeleteMetrics kv.1])
           else acc)
        (s, []) (map_to_list (snis s)).

(** ** [TrackConnections]: one tick *)

(** The body shared by the two loops over [oldConnections]: two empty
    [net.IP] slices are filled by [PutUint32] and rendered. *)
Definition decodeConnKey (k : tuple_key_t) (v : tupleData) : option ConnKey :=
  sourceIP ← PutUint32 [] (u32 (source_ip k));
  destIP ← PutUint32 [] (u32 (dest_ip k));
  Some (MkConnKey (IP_String sourceIP) (IP_String destIP) (sni v)).

(** The first loop: the entries of the connection table that are old. *)
Definition scanConnections (connections : gmap tuple_key_t tupleData) (cur : Z)
    : gmap tuple_key_t tupleData :=
  filter (λ kv, isConnectionOld (tickerClockFirstPacket kv.2) cur = true) connections.

Definition emptySNILogs (oldConnections : list (tuple_key_t * tupleData)) : list event :=
  flat_map (λ kt, if bool_decide (sni kt.2 = "") then [LogError "Empty SNI"] else [])
           oldConnections.

Definition addOldToSniSet (oldConnections : list (tuple_key_t * tupleData))
    (sniSet : gset ConnKey) : option (gset ConnKey) :=
  foldl (λ acc kv, s ← acc; ck ← decodeConnKey kv.1 kv.2; Some ({[ck]} ∪ s))
        (Some sniSet) oldConnections.

Definition groupStale (oldConnections : list (tuple_key_t * tupleData))
    (staleConnections : gmap ConnKey (list tupleData)) : option (gmap ConnKey (list tupleData)) :=
  foldl (λ acc kv, m ← acc; ck ← decodeConnKey kv.1 kv.2;
                   Some (<[ck := default [] (m !! ck) ++ [kv.2]]> m))
        (Some staleConnections) oldConnections.

(** One round of the loop [for sni := range sniSet]. *)
Definition foldTriple (e : env) (statsValuesAtKey : gmap ConnKey (Z * Z))
    (staleConnections : gmap ConnKey (list tupleData))
    (acc : gmap ConnKey bool * State * list event) (sni : ConnKey)
    : gmap ConnKey bool * State * list event :=
  let '(prev, st, evs) := acc in
  let '(succeeded_connections, failed_connections) :=
    match statsValuesAtKey !! sni with
    | Some completedConnections => completedConnections
    | None => (0, 0)
    end in
  let prev := match prev !! sni with Some _ => prev | None => <[sni := false]> prev end in
  let '(st, logs, inc, failedSecond) :=
    accountForConnections st (now_fold e sni) sni (default false (prev !! sni))
      (default [] (staleConnections !! sni)) succeeded_connections failed_connections in
  (<[sni := failedSecond]> prev, st, evs ++ logs ++ [SendInc inc]).

(** The second half of a tick, from the union of the SNIs to the write of
    the ticker clock; [conns] and [stats] are the kernel tables as the first
    half left them and [evs] the events so far. *)
Definition accountAndAdvance (e : env) (w : world)
    (conns : gmap tuple_key_t tupleData) (stats : gmap Z (gmap string (Z * Z)))
    (oldConnections : gmap tuple_key_t tupleData)
    (statsValuesAtKey : gmap ConnKey (Z * Z)) (evs : list event)
    : outcome * world * list event :=
  let cur := currentTickerClock w in
  let panicked :=
    (Panicked,
     MkWorld conns stats (tickerClockMap w) cur (previousFailedSecond w) (aggState w),
     evs) in
  match addOldToSniSet (map_to_list oldConnections) ∅ with
  | None => panicked
  | Some sniSet =>
      let sniSet := sniSet ∪ dom statsValuesAtKey in
      match groupStale (map_to_list oldConnections) (gset_to_gmap [] sniSet) with
      | None => panicked
      | Some staleConnections =>
          let '(prev, st, evs) :=
            foldl (foldTriple e statsValuesAtKey staleConnections)
                  (previousFailedSecond w, aggState w, evs) (elements sniSet) in
          let '(st, dels) := deleteExpiredSNIs st (now_expire e) in
          let cur := u64 (cur + 1) in
          if ticker_put_err e
          then (ClockPutFailed,
                MkWorld conns stats (tickerClockMap w) cur prev st,
                evs ++ dels ++ [LogError "updating tickerClockMap"])
          else (Committed,
                MkWorld conns stats cur cur prev st,
                evs ++ dels ++ [PutTickerClock cur])
      end
  end.

Definition tick (e : env) (w : world) : outcome * world * list event :=
  let cur := currentTickerClock w in
  if connections_err e
  then (SkippedConnections, w, [LogError "reading connections from map"])
  else
    let oldConnections := scanConnections (connectionMap w) cur in
    let evs := emptySNILogs (map_to_list oldConnections) in
    let conns := connectionMap w ∖ oldConnections in
    let statsKey := u64 (cur + 1) mod 20 in
    match getOldestStatsAndCleanup e (statsMap w) statsKey with
    | StatsPanic =>
        (Panicked,
         MkWorld conns (statsMap w) (tickerClockMap w) cur (previousFailedSecond w) (aggState w),
         evs)
    | StatsErr stats =>
        (SkippedStats,
         MkWorld conns stats (tickerClockMap w) cur (previousFailedSecond w) (aggState w),
         evs ++ [LogError "getting stats from map"])
    | StatsOk stats statsValuesAtKey =>
        accountAndAdvance e w conns stats oldConnections statsValuesAtKey evs
    end.

(** The goroutine over a sequence of ticks, no packet arriving in between;
    a panic ends it. *)
Fixpoint run (es : list env) (w : world) : list (outcome * list event) * world :=
  match es with
  | [] => ([], w)
  | e :: es =>
      let '(o, w', evs) := tick e w in
      match o with
      | Panicked => ([(o, evs)], w')
      | _ => let '(rs, w'') := run es w' in ((o, evs) :: rs, w'')
      end
  end.

End Aggregator.

(** ** Auxiliary definitions of the statements *)

(** The number of stale connections in a given state. *)
Definition countState (st : conn_state) (l : list tupleData) : Z :=
  Z.of_nat (length (filter (λ v, state v = st) l)).

(** A stale connection that makes the second an active failed one. *)
Definition staleFailure (v : tupleData) : bool :=
  bool_decide (state v = SYN_RECEIVED) || bool_decide (state v = SYNACK_RECEIVED)
  || bool_decide (state v = RST_SENT_BY_SERVER).

(** The [Inc] and the flag returned by [accountForConnections]. *)
Definition incOf (r : State * list event * Inc * bool) : Inc := r.1.2.
Definition failedSecondOf (r : State * list event * Inc * bool) : bool := r.2.
Definition stateOf (r : State * list event * Inc * bool) : State := r.1.1.1.

(** The SNI part of an inner key as the classifier lays it out: a name
    without NUL octets, then NUL octets only. *)
Fixpoint allNul (s : string) : bool :=
  match s with
  | EmptyString => true
  | String c r => bool_decide (c = zero) && allNul r
  end.

Fixpoint nulPadded (s : string) : bool :=
  match s with
  | EmptyString => true
  | String c r => if bool_decide (c = zero) then allNul r else nulPadded r
  end.

Definition paddedKey (innerKey : string) : Prop :=
  nulPadded (substring 8 (String.length innerKey - 8) innerKey) = true.

(** The decimal number a string starts with, and what follows the first
    octet that is not a digit. *)
Fixpoint leadingNumber (acc : Z) (s : string) : Z * string :=
  match s with
  | EmptyString => (acc, EmptyString)
  | String c r =>
      let n := Z.of_N (N_of_ascii c) in
      if (48 <=? n)%Z && (n <=? 57)%Z then leadingNumber (10 * acc + (n - 48)) r
      else (acc, r)
  end.

(** The [Inc] messages among the events of a tick. *)
Definition sentIncs (evs : list event) : list Inc :=
  flat_map (λ ev, match ev with SendInc i => [i] | _ => [] end) evs.

Definition labels (i : Inc) : ConnKey := MkConnKey (SourceIP i) (DestIP i) (SNI i).

Definition isPut (ev : event) : bool :=
  match ev with PutTickerClock _ => true | _ => false end.

Definition isSend (ev : event) : bool :=
  match ev with SendInc _ => true | _ => false end.

(** The outcome, the world and the events of a tick. *)
Definition outcomeOf (r : outcome * world * list event) : outcome := r.1.1.
Definition worldOf (r : outcome * world * list event) : world := r.1.2.
Definition eventsOf (r : outcome * world * list event) : list event := r.2.

(** A tick in which reading the connection table or the stats slot fails:
    [connections.Err()] is set, or [getOldestStatsAndCleanup] returns an
    error. *)
Definition mapIOError (e : env) (w : world) : Prop :=
  connections_err e = true
  ∨ (connections_err e = false
     ∧ ∃ stats,
         getOldestStatsAndCleanup e (statsMap w) (u64 (currentTickerClock w + 1) mod 20)
         = StatsErr stats).

(** ** Concrete inputs *)

(** The inner stats key of the triple (1.2.3.4, 10.0.0.255, "b"): four
    octets of source, four of destination, the SNI and its NUL padding. *)
Definition key_b : string :=
  String (ascii_of_nat 1) (String (ascii_of_nat 2) (String (ascii_of_nat 3)
    (String (ascii_of_nat 4) (String (ascii_of_nat 10) (String (ascii_of_nat 0)
      (String (ascii_of_nat 0) (String (ascii_of_nat 255)
        (String "b" (String zero (String zero EmptyString)))))))))).

Definition triple_b : ConnKey := MkConnKey "1.2.3.4" "10.0.0.255" "b".

(** The stats table with its twenty slots, all empty but slot [k]. *)
Definition statsWith (k : Z) (m : gmap string (Z * Z)) : gmap Z (gmap string (Z * Z)) :=
  <[k := m]> (list_to_map (map (λ i, (Z.of_nat i, ∅)) (seq 0 20))).

(** No map operation fails; the wall clock reads 100. *)
Definition env_ok : env := MkEnv false false None false (λ _, 100) 100.

(** The lookup of the stats slot fails. *)
Definition env_stats_fail : env := MkEnv false true None false (λ _, 100) 100.

(** Clock 40; slot 1 holds one rejected connection of the triple "b"; the
    connection table is empty. *)
Definition world_reject : world :=
  MkWorld ∅ (statsWith 1 {[ key_b := (0, 1) ]}) 40 40 ∅ newState.

(** Clock 21; one connection, first seen at tick 0 and still in
    SYN_RECEIVED; the stats table is empty. *)
Definition conn_old : tuple_key_t := TupleKey 16909060 167772415 40000 443.

Definition world_old : world :=
  MkWorld {[ conn_old := TupleData 0 "" SYN_RECEIVED ]} (statsWith 1 ∅) 21 21 ∅ newState.

(** The retention window of the examples: five minutes, in seconds. *)
Definition five_minutes : Z := 300.

(** ** [AsSet] *)

(** [strings.Split(s, ",")] as the field before the first comma and the
    fields after it. *)
Fixpoint splitFields (s : string) : string * list string :=
  match s with
  | EmptyString => (EmptyString, [])
  | String c r =>
      let '(x, xs) := splitFields r in
      if bool_decide (c = ","%char) then (EmptyString, x :: xs) else (String c x, xs)
  end.

Definition Split (s : string) : list string :=
  let '(x, xs) := splitFields s in x :: xs.

(** [AsSet]: the fields of the comma-separated [list], as a set. *)
Definition AsSet (list : string) : gset string := list_to_set (Split list).

(** [strings.Join(l, ",")]. *)
Fixpoint Join (l : list string) : string :=
  match l with
  | [] => EmptyString
  | [x] => x
  | x :: xs => x +:+ "," +:+ Join xs
  end.

Fixpoint noComma (s : string) : bool :=
  match s with
  | EmptyString => true
  | String c r => negb (bool_decide (c = ","%char)) && noComma r
  end.

Fixpoint countCommas (s : string) : nat :=
  match s with
  | EmptyString => 0%nat
  | String c r => ((if bool_decide (c = ","%char) then 1 else 0) + countCommas r)%nat
  end.

(** ** [NewNetworkDataSource] and [Close] *)

Section DataSource.

(** [*ebpfConfig] and [*ebpfAttachment], declared outside [packet.go]. *)
Variable ebpfConfigT : Type.
Variable ebpfAttachmentT : Type.

(** [NetworkDataSource]; a [nil] pointer is [None]. *)
Record NetworkDataSource : Type := MkNetworkDataSource {
  cidrs : gset string;
  ports : gset string;
  ebpfConfig : option ebpfConfigT;
  attachment : option ebpfAttachmentT
}.

(** The calls of the [Close] methods of the two resources. *)
Inductive close_event : Type :=
  | CloseAttachment (a : ebpfAttachmentT)
  | CloseConfig (c : ebpfConfigT).

(** [Close]; it always returns [nil]. *)
Definition Close (s : NetworkDataSource) : NetworkDataSource * list close_event :=
  let '(s, evs) :=
    match attachment s with
    | Some a => (MkNetworkDataSource (cidrs s) (ports s) (ebpfConfig s) None, [CloseAttachment a])
    | None => (s, [])
    end in
  match ebpfConfig s with
  | Some c => (MkNetworkDataSource (cidrs s) (ports s) None (attachment s), evs ++ [CloseConfig c])
  | None => (s, evs)
  end.

(** What the functions [NewNetworkDataSource] calls return: the new
    configuration and the attachment ([None] for an error), and whether
    the initialisation of each map fails. *)
Record setup : Type := MkSetup {
  newEBPFConfig : option ebpfConfigT;
  initCIDRMap_err : bool;
  initPortMap_err : bool;
  initStatsMap_err : bool;
  attachProgramToNetworkInterface : option ebpfAttachmentT
}.

Inductive setup_error : Type :=
  | ErrNewEBPFConfig
  | ErrInitCIDRMap
  | ErrInitPortMap
  | ErrInitStatsMap
  | ErrAttach.

(** [NewNetworkDataSource].  The deferred function closes the configuration
    when the function's variable [err] is set as the function returns.  The
    three [if err := ...; err != nil] statements declare an [err] of their
    own, so [err] is still [nil] when they return; the attachment's error
    is assigned to [err] itself. *)
Definition NewNetworkDataSource (su : setup) (cidrs ports : gset string)
    : (setup_error + NetworkDataSource) * list close_event :=
  match newEBPFConfig su with
  | None => (inl ErrNewEBPFConfig, [])
  | Some ec =>
      let deferred (err : bool) : list close_event :=
        if err then [CloseConfig ec] else [] in
      if initCIDRMap_err su then (inl ErrInitCIDRMap, deferred false)
      else if initPortMap_err su then (inl ErrInitPortMap, deferred false)
      else if initStatsMap_err su then (inl ErrInitStatsMap, deferred false)
      else
        match attachProgramToNetworkInterface su with
        | None => (inl ErrAttach, deferred true)
        | Some a => (inr (MkNetworkDataSource cidrs ports (Some ec) (Some a)), deferred false)
        end
  end.

End DataSource.

Arguments MkNetworkDataSource {_ _} _ _ _ _.
Arguments cidrs {_ _} _.
Arguments ports {_ _} _.
Arguments ebpfConfig {_ _} _.
Arguments attachment {_ _} _.
Arguments CloseAttachment {_ _} _.
Arguments CloseConfig {_ _} _.
Arguments Close {_ _} _.
Arguments MkSetup {_ _} _ _ _ _ _.
Arguments newEBPFConfig {_ _} _.
Arguments initCIDRMap_err {_ _} _.
Arguments initPortMap_err {_ _} _.
Arguments initStatsMap_err {_ _} _.
Arguments attachProgramToNetworkInterface {_ _} _.
Arguments NewNetworkDataSource {_ _} _ _ _.

(** ** What a tick computes for one triple *)

(** The stats counts of a triple, zero when the slot has no entry for it. *)
Definition statsCounts (statsValuesAtKey : gmap ConnKey (Z * Z)) (k : ConnKey) : Z * Z :=
  default (0, 0) (statsValuesAtKey !! k).

(** The [Inc] and the flag of the folding rule for the triple [k], from the
    stats counts, the stale connections and the flag carried for [k]. *)
Definition tripleResult (statsValuesAtKey : gmap ConnKey (Z * Z))
    (staleConnections : gmap ConnKey (list tupleData)) (prev : gmap ConnKey bool)
    (k : ConnKey) : Inc * bool :=
  let r := accountForConnections newState 0 k (default false (prev !! k))
             (default [] (staleConnections !! k))
             (statsCounts statsValuesAtKey k).1 (statsCounts statsValuesAtKey k).2 in
  (incOf r, failedSecondOf r).

(** An environment with the write of the ticker clock failing or not. *)
Definition withPutErr (b : bool) (e : env) : env :=
  MkEnv (connections_err e) (stats_lookup_err e) (stats_iter_err e) b
        (now_fold e) (now_expire e).

(** An environment in which no map operation fails. *)
Definition healthy (e : env) : Prop :=
  connections_err e = false ∧ stats_lookup_err e = false
  ∧ stats_iter_err e = None ∧ ticker_put_err e = false.

(** ** The folding rule: [accountForConnections] *)

Lemma accountStale_eq (inc : Inc) (af : bool) (v : tupleData) :
  accountStale (inc, af) v =
  match state v with
  | SYN_RECEIVED | SYNACK_RECEIVED => (inc, true)
  | SNI_RECEIVED => (addSuccessfulConnections 1 inc, af)
  | RST_SENT_BY_SERVER => (addRejectedConnections 1 inc, true)
  | RST_SENT_BY_CLIENT => (addRejectedConnectionsByClient 1 inc, af)
  | NEW | FIN_SENT => (inc, af)
  end.
Proof. unfold accountStale. by destruct (state v). Qed.

Lemma countState_cons (st : conn_state) (v : tupleData) (l : list tupleData) :
  countState st (v :: l) = (if bool_decide (state v = st) then 1 else 0) + countState st l.
Proof.
  unfold countState. rewrite filter_cons.
  case_bool_decide; destruct (decide (state v = st)); try done; simpl; lia.
Qed.

(** The loop over the stale connections, as counts. *)
Lemma foldl_accountStale (l : list tupleData) (inc : Inc) (af : bool) :
  foldl accountStale (inc, af) l =
  (addRejectedConnectionsByClient (countState RST_SENT_BY_CLIENT l)
     (addRejectedConnections (countState RST_SENT_BY_SERVER l)
        (addSuccessfulConnections (countState SNI_RECEIVED l) inc)),
   af || existsb staleFailure l).
Proof.
  revert inc af. induction l as [|v l IH]; intros inc af.
  - destruct inc, af; simpl; unfold addRejectedConnectionsByClient,
      addRejectedConnections, addSuccessfulConnections, countState; simpl;
      (f_equal; f_equal; lia).
  - cbn [foldl]. rewrite accountStale_eq.
    rewrite !(countState_cons _ v l). cbn [existsb]. unfold staleFailure at 1.
    destruct (state v) eqn:E; rewrite IH; destruct inc, af; simpl;
      unfold addRejectedConnectionsByClient, addRejectedConnections,
        addSuccessfulConnections; simpl; f_equal; try done; f_equal; lia.
Qed.


(** C4: the second is active exactly when there is a stale tuple or one of
    the two stats counts is positive; a positive count of failures makes it
    an active failed second; and the returned flag is
    (previous failed and not active) or active failed. *)
Theorem accountForConnections_active_failed (s : State) (now : Z) (connKey : ConnKey)
    (prev : bool) (stale : list tupleData) (succ fail : Z) :
  let r := accountForConnections s now connKey prev stale succ fail in
  let active := bool_decide (ActiveSeconds (incOf r) = 1) in
  let active_failed := bool_decide (ActiveFailedSeconds (incOf r) = 1) in
  (ActiveSeconds (incOf r) = 1 ↔ stale ≠ [] ∨ 0 < succ ∨ 0 < fail)
  ∧ (ActiveSeconds (incOf r) = 0 ↔ ¬ (stale ≠ [] ∨ 0 < succ ∨ 0 < fail))
  ∧ (0 < fail → ActiveFailedSeconds (incOf r) = 1)
  ∧ failedSecondOf r = (prev && negb active) || active_failed
  ∧ (FailedSeconds (incOf r) = 1 ↔ failedSecondOf r = true).
Proof.
  cbv zeta. unfold incOf, failedSecondOf, accountForConnections.
  rewrite foldl_accountStale. cbn [fst snd orb].
  assert (Hlen : (0 <? Z.of_nat (length stale)) = bool_decide (stale ≠ [])).
  { destruct stale; case_bool_decide; try done; cbn [length] in *; lia. }
  rewrite Hlen.
  destruct (bool_decide_reflect (stale ≠ [])), (Z.ltb_spec 0 succ), (Z.ltb_spec 0 fail),
    (existsb staleFailure stale), prev; simpl;
    repeat case_bool_decide; simpl in *;
    repeat split; intros; try done; try lia; try tauto;
    try (exfalso; intuition lia); try (intros [?|[?|?]]; (done || lia)).
Qed.

(** C10: in every [Inc] the folding rule returns, the active seconds, the
    active failed seconds and the failed seconds are 0 or 1. *)
Theorem accountForConnections_seconds_01 (s : State) (now : Z) (connKey : ConnKey)
    (prev : bool) (stale : list tupleData) (succ fail : Z) :
  let inc := incOf (accountForConnections s now connKey prev stale succ fail) in
  (ActiveSeconds inc = 0 ∨ ActiveSeconds inc = 1)
  ∧ (ActiveFailedSeconds inc = 0 ∨ ActiveFailedSeconds inc = 1)
  ∧ (FailedSeconds inc = 0 ∨ FailedSeconds inc = 1).
Proof.
  unfold incOf, accountForConnections. rewrite foldl_accountStale.
  cbn [fst snd orb].
  destruct (0 <? Z.of_nat (length stale)), (0 <? succ), (0 <? fail),
    (existsb staleFailure stale), prev; simpl; lia.
Qed.

(** ** One tick of [TrackConnections] *)

Section Properties.

Variable Expiration : Z.

Lemma decodeConnKey_None (k : tuple_key_t) (v : tupleData) : decodeConnKey k v = None.
Proof. reflexivity. Qed.

Lemma addOldToSniSet_None (l : list (tuple_key_t * tupleData)) :
  foldl (λ acc kv, s ← acc; ck ← decodeConnKey kv.1 kv.2; Some ({[ck]} ∪ s))
        (None : option (gset ConnKey)) l = None.
Proof. induction l as [|kv l IH]; [done|]. by cbn [foldl]. Qed.

Lemma addOldToSniSet_spec (l : list (tuple_key_t * tupleData)) (s : gset ConnKey) :
  addOldToSniSet l s = match l with [] => Some s | _ :: _ => None end.
Proof.
  destruct l as [|kv l]; [done|]. unfold addOldToSniSet. cbn [foldl].
  rewrite decodeConnKey_None. apply addOldToSniSet_None.
Qed.

Lemma groupStale_None (l : list (tuple_key_t * tupleData)) :
  foldl (λ acc kv, m ← acc; ck ← decodeConnKey kv.1 kv.2;
                   Some (<[ck := default [] (m !! ck) ++ [kv.2]]> m))
        (None : option (gmap ConnKey (list tupleData))) l = None.
Proof. induction l as [|kv l IH]; [done|]. by cbn [foldl]. Qed.

Lemma groupStale_spec (l : list (tuple_key_t * tupleData))
    (m : gmap ConnKey (list tupleData)) :
  groupStale l m = match l with [] => Some m | _ :: _ => None end.
Proof.
  destruct l as [|kv l]; [done|]. unfold groupStale. cbn [foldl].
  rewrite decodeConnKey_None. apply groupStale_None.
Qed.

(** The second half of a tick never touches the kernel tables. *)
Lemma accountAndAdvance_kernel (e : env) (w : world)
    (conns : gmap tuple_key_t tupleData) (stats : gmap Z (gmap string (Z * Z)))
    (old : gmap tuple_key_t tupleData) (sv : gmap ConnKey (Z * Z)) (evs : list event) :
  let w' := worldOf (accountAndAdvance Expiration e w conns stats old sv evs) in
  connectionMap w' = conns ∧ statsMap w' = stats.
Proof.
  unfold accountAndAdvance, worldOf.
  destruct (addOldToSniSet _ _) as [sniSet|]; [|done].
  destruct (groupStale _ _) as [stale|]; [|done].
  destruct (foldl _ _ _) as [[prev st] evs'].
  destruct (deleteExpiredSNIs _ _ _) as [st' dels].
  by destruct (ticker_put_err e).
Qed.

(** With an old connection at hand the second half of a tick panics in its
    first loop. *)
Lemma accountAndAdvance_old_panics (e : env) (w : world)
    (conns : gmap tuple_key_t tupleData) (stats : gmap Z (gmap string (Z * Z)))
    (old : gmap tuple_key_t tupleData) (sv : gmap ConnKey (Z * Z)) (evs : list event) :
  old ≠ ∅ →
  accountAndAdvance Expiration e w conns stats old sv evs =
  (Panicked,
   MkWorld conns stats (tickerClockMap w) (currentTickerClock w)
     (previousFailedSecond w) (aggState w),
   evs).
Proof.
  intros Hold. unfold accountAndAdvance. rewrite addOldToSniSet_spec.
  destruct (map_to_list old) as [|kv l] eqn:E; [|done].
  by apply map_to_list_empty_iff in E.
Qed.

(** Whenever the scan finds an old connection and both tables are read
    without error, the tick ends in a panic. *)
Lemma tick_old_panics (e : env) (w : world) stats out :
  connections_err e = false →
  scanConnections (connectionMap w) (currentTickerClock w) ≠ ∅ →
  getOldestStatsAndCleanup e (statsMap w) (u64 (currentTickerClock w + 1) mod 20)
    = StatsOk stats out →
  outcomeOf (tick Expiration e w) = Panicked.
Proof.
  intros He Hold Hstats. unfold tick. rewrite He, Hstats.
  by rewrite accountAndAdvance_old_panics.
Qed.

Lemma tick_connectionMap (e : env) (w : world) :
  connections_err e = false →
  connectionMap (worldOf (tick Expiration e w))
  = connectionMap w ∖ scanConnections (connectionMap w) (currentTickerClock w).
Proof.
  intros He. unfold tick. rewrite He.
  destruct (getOldestStatsAndCleanup _ _ _); try done.
  apply accountAndAdvance_kernel.
Qed.

Lemma isConnectionOld_spec (tfp cur : Z) :
  isConnectionOld tfp cur = true ↔ u64 (STATS_SECONDS_COUNT + tfp) < cur.
Proof. unfold isConnectionOld. apply Z.ltb_lt. Qed.

Lemma isConnectionOld_no_wrap (tfp cur : Z) :
  0 ≤ tfp → tfp + 20 < 2 ^ 64 →
  (isConnectionOld tfp cur = true ↔ cur > tfp + 20).
Proof.
  intros H0 H1. rewrite isConnectionOld_spec. unfold u64, STATS_SECONDS_COUNT.
  rewrite Z.mod_small by lia. lia.
Qed.

(** C6: a tick that reads the connection table without error classifies an
    entry as old exactly when the current tick exceeds the tick of its first
    packet plus 20 (an unsigned 64-bit sum, which is the plain sum for every
    first-packet tick below 2^64 - 20); it collects precisely the old
    entries, deletes them from the table and leaves every fresh entry in
    place. *)
Theorem tick_drains_exactly_old (e : env) (w : world) :
  connections_err e = false →
  let cur := currentTickerClock w in
  let old := scanConnections (connectionMap w) cur in
  let after := connectionMap (worldOf (tick Expiration e w)) in
  (∀ tfp, isConnectionOld tfp cur = true ↔ cur > u64 (STATS_SECONDS_COUNT + tfp))
  ∧ (∀ k d, old !! k = Some d ↔
          connectionMap w !! k = Some d
          ∧ cur > u64 (STATS_SECONDS_COUNT + tickerClockFirstPacket d))
  ∧ (∀ k d, after !! k = Some d ↔
            connectionMap w !! k = Some d
            ∧ cur ≤ u64 (STATS_SECONDS_COUNT + tickerClockFirstPacket d))
  ∧ (∀ tfp, 0 ≤ tfp → tfp + 20 < 2 ^ 64 →
            u64 (STATS_SECONDS_COUNT + tfp) = tfp + 20).
Proof.
  intros He cur old after. subst after. rewrite tick_connectionMap by done.
  fold cur. fold old. split; [|split; [|split]].
  - intros tfp. rewrite isConnectionOld_spec. lia.
  - intros k d. subst old. unfold scanConnections.
    rewrite map_lookup_filter_Some. cbn [snd]. rewrite isConnectionOld_spec.
    split; intros [? ?]; split; (done || lia).
  - intros k d. rewrite lookup_difference_Some. subst old. unfold scanConnections.
    rewrite map_lookup_filter_None. cbn [snd]. split.
    + intros [Hk [Hn|Hn]]; [congruence|]. split; [done|].
      specialize (Hn _ Hk). rewrite isConnectionOld_spec in Hn. lia.
    + intros [Hk Hle]. split; [done|]. right. intros d' Hd'.
      rewrite isConnectionOld_spec. assert (d' = d) as -> by congruence. lia.
  - intros tfp H0 H1. unfold u64, STATS_SECONDS_COUNT. rewrite Z.mod_small; lia.
Qed.

(** ** [getOldestStatsAndCleanup] *)

Lemma foldl_delete_lookup {K : Type} `{Countable K} {V : Type} (ks : list K)
    (m : gmap K V) (k : K) :
  foldl (λ m k, delete k m) m ks !! k = if decide (k ∈ ks) then None else m !! k.
Proof.
  revert m. induction ks as [|x ks IH]; intros m.
  - by rewrite decide_False by apply not_elem_of_nil.
  - cbn [foldl]. rewrite IH. destruct (decide (k ∈ ks)) as [Hl|Hl].
    + by rewrite decide_True by (by right).
    + destruct (decide (k = x)) as [->|Hx].
      * rewrite decide_True by left. apply lookup_delete_eq.
      * rewrite decide_False by (intros [?|?]%elem_of_cons; done).
        by apply lookup_delete_ne.
Qed.

Lemma deleteInner_lookup (l : list string) (m : gmap string (Z * Z)) (k : string) :
  deleteInner m l !! k = if decide (k ∈ l) then None else m !! k.
Proof. apply foldl_delete_lookup. Qed.

(** Deleting every key the iterator handed out empties the inner map. *)
Lemma deleteInner_all (m : gmap string (Z * Z)) :
  deleteInner m (map_to_list m).*1 = ∅.
Proof.
  apply map_eq. intros k. rewrite deleteInner_lookup, lookup_empty.
  case_decide as Hk; [done|].
  destruct (m !! k) as [v|] eqn:E; [|done].
  exfalso. apply Hk. apply list_elem_of_fmap. exists (k, v). split; [done|].
  by apply elem_of_map_to_list.
Qed.

Lemma collectInner_snoc (l : list (string * (Z * Z))) (kv : string * (Z * Z)) :
  collectInner (l ++ [kv]) =
  out ← collectInner l; key ← innerKeyToConnKey kv.1; Some (<[key := kv.2]> out).
Proof. unfold collectInner. by rewrite foldl_app. Qed.

Lemma innerKeyToConnKey_is_Some (innerKey : string) :
  (8 ≤ String.length innerKey)%nat → is_Some (innerKeyToConnKey innerKey).
Proof.
  intros H. unfold innerKeyToConnKey.
  destruct (Z.ltb_spec (Z.of_nat (String.length innerKey)) 8); [lia|]. by eexists.
Qed.

(** What the loop over the inner entries collects: a record for every
    entry, and nothing but records of entries. *)
Lemma collectInner_spec (l : list (string * (Z * Z))) :
  Forall (λ kv, (8 ≤ String.length kv.1)%nat) l →
  ∃ out, collectInner l = Some out
    ∧ (∀ ck v, out !! ck = Some v →
               ∃ ik, (ik, v) ∈ l ∧ innerKeyToConnKey ik = Some ck)
    ∧ (∀ ik v, (ik, v) ∈ l →
               ∃ ck, innerKeyToConnKey ik = Some ck ∧ is_Some (out !! ck)).
Proof.
  induction l as [|[ik v] l IH] using rev_ind; intros Hall.
  - exists ∅. split; [done|]. split.
    + intros ck v. by rewrite lookup_empty.
    + intros ik v H. by apply not_elem_of_nil in H.
  - apply Forall_app in Hall as [Hl Hkv]. apply Forall_inv in Hkv. cbn [fst] in Hkv.
    destruct (IH Hl) as (out & Hout & HA & HB).
    destruct (innerKeyToConnKey_is_Some ik Hkv) as [ck Hck].
    exists (<[ck := v]> out). rewrite collectInner_snoc, Hout. cbn. rewrite Hck. cbn.
    split; [done|]. split.
    + intros ck' v'. rewrite lookup_insert. case_decide as Heq.
      * intros [= <-]. subst ck'. exists ik. split; [|done].
        apply elem_of_app. right. by apply list_elem_of_singleton.
      * intros H. destruct (HA _ _ H) as (ik' & Hin & Hk). exists ik'. split; [|done].
        apply elem_of_app. by left.
    + intros ik' v' [Hin|Hin%list_elem_of_singleton]%elem_of_app.
      * destruct (HB _ _ Hin) as (ck' & Hck' & Hs). exists ck'. split; [done|].
        rewrite lookup_insert. by case_decide.
      * injection Hin as -> ->. exists ck. split; [done|].
        rewrite lookup_insert_eq. by eexists.
Qed.

Lemma leadingNumber_ubtoa_dot (a : ascii) (r : string) :
  leadingNumber 0 (ubtoa (Z.of_N (N_of_ascii a)) +:+ "." +:+ r)
  = (Z.of_N (N_of_ascii a), r).
Proof. by destruct a as [[] [] [] [] [] [] [] []]. Qed.

Lemma leadingNumber_ubtoa (a : ascii) :
  leadingNumber 0 (ubtoa (Z.of_N (N_of_ascii a))) = (Z.of_N (N_of_ascii a), "").
Proof. by destruct a as [[] [] [] [] [] [] [] []]. Qed.

Lemma octet_inj (a b : ascii) : Z.of_N (N_of_ascii a) = Z.of_N (N_of_ascii b) → a = b.
Proof.
  intros H. apply N2Z.inj in H.
  by rewrite <- (ascii_N_embedding a), <- (ascii_N_embedding b), H.
Qed.

Lemma IP_String_inj (a1 a2 a3 a4 b1 b2 b3 b4 : ascii) :
  IP_String (octets (String a1 (String a2 (String a3 (String a4 "")))))
  = IP_String (octets (String b1 (String b2 (String b3 (String b4 ""))))) →
  a1 = b1 ∧ a2 = b2 ∧ a3 = b3 ∧ a4 = b4.
Proof.
  cbn [octets list_ascii_of_string map IP_String]. intros H.
  apply (f_equal (leadingNumber 0)) in H. rewrite !leadingNumber_ubtoa_dot in H.
  injection H as H1 H. apply octet_inj in H1.
  apply (f_equal (leadingNumber 0)) in H. rewrite !leadingNumber_ubtoa_dot in H.
  injection H as H2 H. apply octet_inj in H2.
  apply (f_equal (leadingNumber 0)) in H. rewrite !leadingNumber_ubtoa_dot in H.
  injection H as H3 H. apply octet_inj in H3.
  apply (f_equal (leadingNumber 0)) in H. rewrite !leadingNumber_ubtoa in H.
  injection H as H4. apply octet_inj in H4. done.
Qed.

Lemma allNul_eq (s1 s2 : string) :
  allNul s1 = true → allNul s2 = true → String.length s1 = String.length s2 → s1 = s2.
Proof.
  revert s2. induction s1 as [|c1 r1 IH]; intros [|c2 r2]; cbn; try done.
  intros [H1 H1']%andb_true_iff [H2 H2']%andb_true_iff [= Hlen].
  apply bool_decide_eq_true in H1, H2. subst. f_equal. by apply IH.
Qed.

Lemma before_nul_inj (s1 s2 : string) :
  nulPadded s1 = true → nulPadded s2 = true → String.length s1 = String.length s2 →
  before_nul s1 = before_nul s2 → s1 = s2.
Proof.
  revert s2. induction s1 as [|c1 r1 IH]; intros [|c2 r2]; cbn; try done.
  intros H1 H2 [= Hlen] Hb. do 2 case_bool_decide; subst; try done.
  - f_equal. by apply allNul_eq.
  - injection Hb as -> Hb. f_equal. by apply IH.
Qed.

Lemma substring_0_length (s : string) : substring 0 (String.length s) s = s.
Proof. induction s as [|c r IH]; [done|]. cbn. by rewrite IH. Qed.

Lemma substring_0_0 (s : string) : substring 0 0 s = "".
Proof. by destruct s. Qed.

(** Keys of one length with a NUL-padded SNI part render to distinct
    triples. *)
Lemma innerKeyToConnKey_inj (k1 k2 : string) (ck : ConnKey) :
  innerKeyToConnKey k1 = Some ck → innerKeyToConnKey k2 = Some ck →
  String.length k1 = String.length k2 → paddedKey k1 → paddedKey k2 → k1 = k2.
Proof.
  unfold innerKeyToConnKey, paddedKey.
  destruct (Z.ltb_spec (Z.of_nat (String.length k1)) 8) as [|H1]; [done|].
  destruct (Z.ltb_spec (Z.of_nat (String.length k2)) 8) as [|H2]; [done|].
  destruct k1 as [|a1 [|a2 [|a3 [|a4 [|a5 [|a6 [|a7 [|a8 r1]]]]]]]]; cbn in H1; try lia.
  destruct k2 as [|b1 [|b2 [|b3 [|b4 [|b5 [|b6 [|b7 [|b8 r2]]]]]]]]; cbn in H2; try lia.
  cbn [String.length substring Nat.sub].
  rewrite !Nat.sub_0_r, !substring_0_length, !substring_0_0.
  intros [= <-] [= Hs Hd Hn] [= Hlen] Hp1 Hp2.
  apply IP_String_inj in Hs as (-> & -> & -> & ->).
  apply IP_String_inj in Hd as (-> & -> & -> & ->).
  by rewrite (before_nul_inj r2 r1).
Qed.

Lemma tick_statsMap (e : env) (w : world) stats out :
  connections_err e = false →
  getOldestStatsAndCleanup e (statsMap w) (u64 (currentTickerClock w + 1) mod 20)
    = StatsOk stats out →
  statsMap (worldOf (tick Expiration e w)) = stats.
Proof.
  intros He Hs. unfold tick. rewrite He, Hs. apply accountAndAdvance_kernel.
Qed.

(** C5: a tick that reads its tables without error consults the stats slot
    at index (current tick + 1) mod 20 and no other (the sum is an unsigned
    64-bit one, the plain sum below 2^64 - 1), turns every inner entry of
    that slot into a record keyed by its (source, destination, SNI) triple
    with the entry's pair of counts (for keys of one length whose SNI is
    NUL-padded, as the classifier lays them out, no two entries share a
    triple; in general the last entry read for a triple gives the counts),
    and deletes every inner entry it read, which leaves the slot empty. *)
Theorem tick_consumes_oldest_stats_slot (e : env) (w : world)
    (innerMap : gmap string (Z * Z)) :
  let cur := currentTickerClock w in
  let statsKey := u64 (cur + 1) mod 20 in
  connections_err e = false →
  stats_lookup_err e = false →
  stats_iter_err e = None →
  statsMap w !! statsKey = Some innerMap →
  (∀ innerKey, is_Some (innerMap !! innerKey) → (8 ≤ String.length innerKey)%nat) →
  ∃ out,
    getOldestStatsAndCleanup e (statsMap w) statsKey
      = StatsOk (<[statsKey := ∅]> (statsMap w)) out
    ∧ statsMap (worldOf (tick Expiration e w)) = <[statsKey := ∅]> (statsMap w)
    ∧ (∀ innerKey innerValue, innerMap !! innerKey = Some innerValue →
         ∃ ck, innerKeyToConnKey innerKey = Some ck ∧ is_Some (out !! ck)
           ∧ ((∀ k' v', innerMap !! k' = Some v' →
                        innerKeyToConnKey k' = Some ck → v' = innerValue) →
              out !! ck = Some innerValue))
    ∧ ((∀ k1 k2, is_Some (innerMap !! k1) → is_Some (innerMap !! k2) →
                 String.length k1 = String.length k2) →
       (∀ k, is_Some (innerMap !! k) → paddedKey k) →
       ∀ innerKey innerValue, innerMap !! innerKey = Some innerValue →
         ∃ ck, innerKeyToConnKey innerKey = Some ck ∧ out !! ck = Some innerValue)
    ∧ (∀ ck v, out !! ck = Some v →
         ∃ innerKey, innerMap !! innerKey = Some v ∧ innerKeyToConnKey innerKey = Some ck)
    ∧ (0 ≤ cur → cur + 1 < 2 ^ 64 → statsKey = (cur + 1) mod 20).
Proof.
  intros cur statsKey He Hl Hi Hslot Hlen.
  assert (Hall : Forall (λ kv : string * (Z * Z), (8 ≤ String.length kv.1)%nat)
                        (map_to_list innerMap)).
  { apply Forall_forall. intros [k v] Hin. apply elem_of_map_to_list in Hin.
    apply Hlen. by eexists. }
  destruct (collectInner_spec _ Hall) as (out & Hout & HA & HB).
  assert (Hget : getOldestStatsAndCleanup e (statsMap w) statsKey
                 = StatsOk (<[statsKey := ∅]> (statsMap w)) out).
  { unfold getOldestStatsAndCleanup, innerEntries. rewrite Hl, Hslot, Hi, Hout.
    rewrite deleteInner_all. rewrite bool_decide_eq_false_2; [done|].
    by intros [? ?]. }
  assert (Hrec : ∀ ik v, innerMap !! ik = Some v →
            ∃ ck, innerKeyToConnKey ik = Some ck ∧ is_Some (out !! ck)
              ∧ ((∀ k' v', innerMap !! k' = Some v' →
                           innerKeyToConnKey k' = Some ck → v' = v) →
                 out !! ck = Some v)).
  { intros ik v Hik. apply elem_of_map_to_list in Hik.
    destruct (HB _ _ Hik) as (ck & Hck & [v' Hv']). exists ck.
    split; [done|]. split; [by eexists|]. intros Huniq.
    destruct (HA _ _ Hv') as (ik' & Hin' & Hck'). apply elem_of_map_to_list in Hin'.
    by rewrite Hv', (Huniq _ _ Hin' Hck'). }
  exists out. split; [done|]. split; [by apply (tick_statsMap e w _ out)|].
  split; [|split; [|split]].
  - exact Hrec.
  - intros Hsame Hpad ik v Hik. destruct (Hrec _ _ Hik) as (ck & Hck & _ & Hu).
    exists ck. split; [done|]. apply Hu. intros k' v' Hk' Hck'.
    assert (k' = ik) as ->; [|congruence].
    apply (innerKeyToConnKey_inj k' ik ck); try done.
    + apply Hsame; by eexists.
    + apply Hpad; by eexists.
    + apply Hpad; by eexists.
  - intros ck v Hv. destruct (HA _ _ Hv) as (ik & Hin & Hck).
    exists ik. split; [|done]. by apply elem_of_map_to_list.
  - intros H0 H1. subst statsKey. unfold u64. by rewrite (Z.mod_small (cur + 1) (2 ^ 64)) by lia.
Qed.

(** ** The events of a tick *)

Lemma accountForConnections_labels (s : State) (now : Z) (connKey : ConnKey)
    (prev : bool) (stale : list tupleData) (succ fail : Z) :
  labels (incOf (accountForConnections s now connKey prev stale succ fail)) = connKey.
Proof.
  unfold incOf, accountForConnections. rewrite foldl_accountStale. cbn [fst snd].
  destruct connKey.
  by destruct (0 <? fail), (existsb staleFailure stale),
    (0 <? Z.of_nat (length stale)), (0 <? succ), prev.
Qed.

Lemma accountForConnections_logs (s : State) (now : Z) (connKey : ConnKey)
    (prev : bool) (stale : list tupleData) (succ fail : Z) :
  Forall (λ ev, isPut ev = false ∧ isSend ev = false)
         (accountForConnections s now connKey prev stale succ fail).1.1.2.
Proof.
  unfold accountForConnections. rewrite foldl_accountStale. cbn [fst snd].
  case_bool_decide; repeat constructor.
Qed.

Lemma foldTriple_events (e : env) (sv : gmap ConnKey (Z * Z))
    (stale : gmap ConnKey (list tupleData))
    (acc : gmap ConnKey bool * State * list event) (k : ConnKey) :
  ∃ logs inc,
    (foldTriple e sv stale acc k).2 = acc.2 ++ logs ++ [SendInc inc]
    ∧ labels inc = k
    ∧ Forall (λ ev, isPut ev = false ∧ isSend ev = false) logs.
Proof.
  destruct acc as [[prev st] evs]. unfold foldTriple.
  destruct (sv !! k) as [[succ fail]|].
  - set (prev' := match prev !! k with Some _ => prev | None => <[k:=false]> prev end).
    pose proof (accountForConnections_labels st (now_fold e k) k
                  (default false (prev' !! k)) (default [] (stale !! k)) succ fail) as Hl.
    pose proof (accountForConnections_logs st (now_fold e k) k
                  (default false (prev' !! k)) (default [] (stale !! k)) succ fail) as Hg.
    destruct (accountForConnections _ _ _ _ _ _ _) as [[[st' logs] inc] fs].
    by exists logs, inc.
  - set (prev' := match prev !! k with Some _ => prev | None => <[k:=false]> prev end).
    pose proof (accountForConnections_labels st (now_fold e k) k
                  (default false (prev' !! k)) (default [] (stale !! k)) 0 0) as Hl.
    pose proof (accountForConnections_logs st (now_fold e k) k
                  (default false (prev' !! k)) (default [] (stale !! k)) 0 0) as Hg.
    destruct (accountForConnections _ _ _ _ _ _ _) as [[[st' logs] inc] fs].
    by exists logs, inc.
Qed.

(** The loop over [sniSet] sends one [Inc] per triple of the set and does
    not write the ticker clock. *)
Lemma foldl_foldTriple_events (e : env) (sv : gmap ConnKey (Z * Z))
    (stale : gmap ConnKey (list tupleData)) (keys : list ConnKey)
    (acc : gmap ConnKey bool * State * list event) :
  ∃ new,
    (foldl (foldTriple e sv stale) acc keys).2 = acc.2 ++ new
    ∧ Forall (λ ev, isPut ev = false) new
    ∧ (∀ i, SendInc i ∈ new → labels i ∈ keys)
    ∧ (∀ k, k ∈ keys → ∃ i, SendInc i ∈ new ∧ labels i = k).
Proof.
  revert acc. induction keys as [|k keys IH]; intros acc.
  - exists []. rewrite app_nil_r. repeat split; try done.
    + intros i H. by apply not_elem_of_nil in H.
    + intros k H. by apply not_elem_of_nil in H.
  - cbn [foldl]. destruct (IH (foldTriple e sv stale acc k)) as (new & Hn & Hp & Hs & Ht).
    destruct (foldTriple_events e sv stale acc k) as (logs & inc & Hstep & Hlab & Hlogs).
    exists (logs ++ [SendInc inc] ++ new). rewrite Hn, Hstep.
    split; [by rewrite <- !app_assoc|]. split; [|split].
    + apply Forall_app. split; [by eapply Forall_impl; [done|]; intros ? [? ?]|].
      apply Forall_app. split; [by repeat constructor|done].
    + intros i [Hi|[Hi|Hi]%elem_of_app]%elem_of_app.
      * by destruct (proj1 (Forall_forall _ _) Hlogs _ Hi).
      * apply list_elem_of_singleton in Hi. injection Hi as ->. rewrite Hlab. left.
      * right. by apply Hs.
    + intros k' [->|Hk']%elem_of_cons.
      * exists inc. split; [|done]. apply elem_of_app. right. apply elem_of_app. left.
        by apply list_elem_of_singleton.
      * destruct (Ht _ Hk') as (i & Hi & Hli). exists i. split; [|done].
        apply elem_of_app. right. apply elem_of_app. by right.
Qed.

Lemma deleteExpiredSNIs_events_aux (now : Z) (l : list (string * Z))
    (acc : State * list event) :
  Forall (λ ev, isPut ev = false ∧ isSend ev = false) acc.2 →
  Forall (λ ev, isPut ev = false ∧ isSend ev = false)
    (foldl (λ acc kv,
              if (kv.2 + Expiration <? now)%Z
              then (MkState (delete kv.1 (snis acc.1)), acc.2 ++ [DeleteMetrics kv.1])
              else acc) acc l).2.
Proof.
  revert acc. induction l as [|kv l IH]; intros acc Hacc; [done|].
  cbn [foldl]. apply IH. destruct (_ <? _); [|done]. cbn [snd].
  apply Forall_app. split; [done|]. by repeat constructor.
Qed.

(** [deleteExpiredSNIs] only deletes metrics. *)
Lemma deleteExpiredSNIs_events (s : State) (now : Z) :
  Forall (λ ev, isPut ev = false ∧ isSend ev = false)
         (deleteExpiredSNIs Expiration s now).2.
Proof. unfold deleteExpiredSNIs. by apply deleteExpiredSNIs_events_aux. Qed.

(** The two ways the second half of a tick can go. *)
Lemma accountAndAdvance_inv (e : env) (w : world)
    (conns : gmap tuple_key_t tupleData) (stats : gmap Z (gmap string (Z * Z)))
    (old : gmap tuple_key_t tupleData) (sv : gmap ConnKey (Z * Z)) (evs : list event) :
  let cur := currentTickerClock w in
  (old ≠ ∅ ∧
   accountAndAdvance Expiration e w conns stats old sv evs =
   (Panicked,
    MkWorld conns stats (tickerClockMap w) cur (previousFailedSecond w) (aggState w), evs))
  ∨ (old = ∅ ∧ ∃ prev st new,
       Forall (λ ev, isPut ev = false) new
       ∧ (∀ i, SendInc i ∈ new → labels i ∈ dom sv)
       ∧ (∀ k, k ∈ dom sv → ∃ i, SendInc i ∈ new ∧ labels i = k)
       ∧ accountAndAdvance Expiration e w conns stats old sv evs =
         if ticker_put_err e
         then (ClockPutFailed,
               MkWorld conns stats (tickerClockMap w) (u64 (cur + 1)) prev st,
               evs ++ new ++ [LogError "updating tickerClockMap"])
         else (Committed,
               MkWorld conns stats (u64 (cur + 1)) (u64 (cur + 1)) prev st,
               evs ++ new ++ [PutTickerClock (u64 (cur + 1))])).
Proof.
  intros cur. destruct (decide (old = ∅)) as [->|Hold].
  - right. split; [done|]. unfold accountAndAdvance.
    rewrite map_to_list_empty. cbn [addOldToSniSet groupStale foldl].
    destruct (foldl_foldTriple_events e sv (gset_to_gmap [] (∅ ∪ dom sv))
                (elements (∅ ∪ dom sv : gset ConnKey))
                (previousFailedSecond w, aggState w, evs))
      as (new & Hn & Hp & Hs & Ht).
    destruct (foldl _ _ _) as [[prev st] evs'] eqn:E. cbn [snd] in Hn. subst evs'.
    pose proof (deleteExpiredSNIs_events st (now_expire e)) as Hd.
    destruct (deleteExpiredSNIs _ _ _) as [st' dels]. cbn [snd] in Hd.
    exists prev, st', (new ++ dels). split; [|split; [|split]].
    + apply Forall_app. split; [done|]. eapply Forall_impl; [done|]. by intros ? [? ?].
    + intros i Hi. apply elem_of_app in Hi as [Hi|Hi].
      * apply Hs, elem_of_elements, elem_of_union in Hi as [Hi|Hi]; [|done].
        by apply not_elem_of_empty in Hi.
      * by destruct (proj1 (Forall_forall _ _) Hd _ Hi).
    + intros k Hk. destruct (Ht k) as (i & Hi & Hl).
      { apply elem_of_elements, elem_of_union. by right. }
      exists i. split; [|done]. apply elem_of_app. by left.
    + fold cur. destruct (ticker_put_err e); by rewrite <- !app_assoc.
  - left. split; [done|]. by apply accountAndAdvance_old_panics.
Qed.

Lemma emptySNILogs_events (l : list (tuple_key_t * tupleData)) :
  Forall (λ ev, isPut ev = false ∧ isSend ev = false) (emptySNILogs l).
Proof.
  unfold emptySNILogs. induction l as [|kt l IH]; [constructor|].
  cbn [flat_map]. apply Forall_app. split; [|done].
  case_bool_decide; repeat constructor.
Qed.

Lemma sentIncs_app (l1 l2 : list event) : sentIncs (l1 ++ l2) = sentIncs l1 ++ sentIncs l2.
Proof. unfold sentIncs. apply flat_map_app. Qed.

Lemma sentIncs_no_send (l : list event) :
  Forall (λ ev, isPut ev = false ∧ isSend ev = false) l → sentIncs l = [].
Proof.
  induction 1 as [|ev l [_ Hs] _ IH]; [done|].
  unfold sentIncs in *. cbn [flat_map]. rewrite IH. by destruct ev.
Qed.

Lemma elem_of_sentIncs (i : Inc) (l : list event) : i ∈ sentIncs l ↔ SendInc i ∈ l.
Proof.
  unfold sentIncs. rewrite list_elem_of_In, in_flat_map. split.
  - intros (ev & Hin & Hi). destruct ev; try done. destruct Hi as [->|[]].
    by apply list_elem_of_In.
  - intros H. exists (SendInc i). split; [by apply list_elem_of_In|by left].
Qed.

(** C7: when reading the connection table or the stats slot
    fails, the tick logs the error and is abandoned with the aggregator's
    own state as it was: the carry-over maps are unchanged, the ticker clock
    (the variable and the shared map) is not advanced, no Inc is sent, and
    the next tick runs at the same clock value; a failed read of the
    connection table leaves the whole world unchanged. *)
Theorem tick_map_error_skips (e : env) (w : world) :
  mapIOError e w →
  let r := tick Expiration e w in
  (outcomeOf r = SkippedConnections ∨ outcomeOf r = SkippedStats)
  ∧ previousFailedSecond (worldOf r) = previousFailedSecond w
  ∧ aggState (worldOf r) = aggState w
  ∧ currentTickerClock (worldOf r) = currentTickerClock w
  ∧ tickerClockMap (worldOf r) = tickerClockMap w
  ∧ sentIncs (eventsOf r) = []
  ∧ Forall (λ ev, isPut ev = false) (eventsOf r)
  ∧ (∃ msg, last (eventsOf r) = Some (LogError msg))
  ∧ (connections_err e = true → worldOf r = w).
Proof.
  intros [He|[He [stats' Hs]]] r; subst r; unfold tick; rewrite He.
  - cbn. repeat split; try done; [by left|by repeat constructor|by eexists].
  - rewrite Hs. cbn.
    pose proof (emptySNILogs_events
      (map_to_list (scanConnections (connectionMap w) (currentTickerClock w)))) as Hl.
    repeat split; try done.
    + by right.
    + rewrite sentIncs_app, sentIncs_no_send by done. done.
    + apply Forall_app. split; [|by repeat constructor].
      eapply Forall_impl; [done|]. by intros ? [? ?].
    + eexists. by rewrite last_snoc.
Qed.


(** Every Inc a tick sends belongs to a triple that has an entry in the
    stats slot the tick consumed: a triple without traffic gets no Inc,
    whatever failure it carries. *)
Lemma tick_incs_only_for_traffic (e : env) (w : world) (i : Inc) :
  i ∈ sentIncs (eventsOf (tick Expiration e w)) →
  ∃ stats out,
    getOldestStatsAndCleanup e (statsMap w) (u64 (currentTickerClock w + 1) mod 20)
      = StatsOk stats out
    ∧ labels i ∈ dom out.
Proof.
  unfold tick. destruct (connections_err e); [by intros ?%elem_of_nil|].
  pose proof (emptySNILogs_events
    (map_to_list (scanConnections (connectionMap w) (currentTickerClock w)))) as Hl.
  destruct (getOldestStatsAndCleanup _ _ _) as [|stats|stats sv].
  - cbn. rewrite sentIncs_no_send by done. by intros ?%elem_of_nil.
  - cbn. rewrite sentIncs_app, sentIncs_no_send by done. by intros ?%elem_of_nil.
  - match goal with
    | |- context [accountAndAdvance _ _ _ ?c ?s ?o ?v ?l] =>
        destruct (accountAndAdvance_inv e w c s o v l)
          as [[_ ->]|(_ & prev & st & new & Hp & Hs & _ & ->)]
    end.
    + cbn. rewrite sentIncs_no_send by done. by intros ?%elem_of_nil.
    + intros Hi. exists stats, sv. split; [done|]. apply Hs.
      destruct (ticker_put_err e); cbn in Hi;
        rewrite !sentIncs_app, sentIncs_no_send, app_nil_r in Hi by done;
        by apply elem_of_sentIncs.
Qed.

(** ** The SNI registry *)

(** The folding rule stores the time of the call only for an SNI it does
    not know yet; a known SNI keeps the time it has. *)
Lemma accountForConnections_snis (s : State) (now : Z) (connKey : ConnKey)
    (prev : bool) (stale : list tupleData) (succ fail : Z) :
  snis (stateOf (accountForConnections s now connKey prev stale succ fail))
  = match snis s !! connSNI connKey with
    | Some _ => snis s
    | None => <[connSNI connKey := now]> (snis s)
    end.
Proof.
  unfold stateOf, accountForConnections. rewrite foldl_accountStale. cbn [fst snd].
  by destruct (snis s !! connSNI connKey).
Qed.

Lemma deleteExpiredSNIs_fold (now : Z) (l : list (string * Z)) (m : gmap string Z)
    (evs : list event) :
  foldl (λ acc kv,
           if (kv.2 + Expiration <? now)%Z
           then (MkState (delete kv.1 (snis acc.1)), acc.2 ++ [DeleteMetrics kv.1])
           else acc) (MkState m, evs) l
  = (MkState (foldl (λ m k, delete k m) m
                (filter (λ kv, kv.2 + Expiration < now) l).*1),
     evs ++ (DeleteMetrics <$> (filter (λ kv, kv.2 + Expiration < now) l).*1)).
Proof.
  revert m evs. induction l as [|[k v] l IH]; intros m evs.
  - by rewrite app_nil_r.
  - cbn [foldl fst snd]. rewrite filter_cons. cbn [snd].
    destruct (Z.ltb_spec (v + Expiration) now) as [Hlt|Hge].
    + rewrite decide_True by done. cbn [snis]. rewrite IH. cbn.
      by rewrite <- app_assoc.
    + rewrite decide_False by lia. apply IH.
Qed.

(** [deleteExpiredSNIs] removes exactly the SNIs whose recorded time is
    more than the retention window before [now], and deletes the metrics of
    each of them. *)
Lemma deleteExpiredSNIs_spec (s : State) (now : Z) :
  let r := deleteExpiredSNIs Expiration s now in
  (∀ name, snis r.1 !! name =
           match snis s !! name with
           | Some lastUpdate => if (lastUpdate + Expiration <? now)%Z then None
                                else Some lastUpdate
           | None => None
           end)
  ∧ (∀ name, DeleteMetrics name ∈ r.2 ↔
             ∃ lastUpdate, snis s !! name = Some lastUpdate ∧ lastUpdate + Expiration < now).
Proof.
  intros r. subst r. unfold deleteExpiredSNIs. destruct s as [m]. cbn [snis].
  rewrite deleteExpiredSNIs_fold. cbn [fst snd snis app].
  assert (Hin : ∀ name, name ∈ (filter (λ kv : string * Z, kv.2 + Expiration < now)
                                       (map_to_list m)).*1
                        ↔ ∃ t, m !! name = Some t ∧ t + Expiration < now).
  { intros name. rewrite list_elem_of_fmap. split.
    - intros ([k t] & -> & [Hlt Hkt%elem_of_map_to_list]%list_elem_of_filter).
      by exists t.
    - intros (t & Hm & Hlt). exists (name, t). split; [done|].
      apply list_elem_of_filter. split; [done|]. by apply elem_of_map_to_list. }
  split.
  - intros name. rewrite foldl_delete_lookup. case_decide as Hd.
    + apply Hin in Hd as (t & -> & Hlt).
      destruct (Z.ltb_spec (t + Expiration) now); [done|lia].
    + destruct (m !! name) as [t|] eqn:E; [|done].
      destruct (Z.ltb_spec (t + Expiration) now); [|done].
      exfalso. apply Hd, Hin. by exists t.
  - intros name. rewrite <- Hin.
    rewrite (list_elem_of_fmap DeleteMetrics). split.
    + by intros (x & [= ->] & Hx).
    + intros Hx. by exists name.
Qed.

End Properties.

(** ** The claims at concrete inputs *)

(** C1: with one old connection in the table and no map error, the tick
    does not complete: decoding the source address into the empty slice
    [net.IP{}] panics, after the connection has been deleted from the
    table. *)
Theorem tick_old_connection_panics :
  isConnectionOld 0 21 = true
  ∧ PutUint32 [] (u32 (source_ip conn_old)) = None
  ∧ outcomeOf (tick five_minutes env_ok world_old) = Panicked
  ∧ sentIncs (eventsOf (tick five_minutes env_ok world_old)) = []
  ∧ connectionMap (worldOf (tick five_minutes env_ok world_old)) !! conn_old = None.
Proof. by vm_compute. Qed.

(** C2: tick 40 sends an Inc with one failed and one active second for the
    triple "b"; the three ticks after it, without traffic, send no Inc at
    all, although the carried failure is still recorded for the triple. *)
Theorem run_failure_not_carried :
  (run five_minutes [env_ok; env_ok; env_ok; env_ok] world_reject).1
  = [(Committed,
      [SendInc (MkInc "b" "1.2.3.4" "10.0.0.255" 0 1 0 1 1 1); PutTickerClock 41]);
     (Committed, [PutTickerClock 42]);
     (Committed, [PutTickerClock 43]);
     (Committed, [PutTickerClock 44])]
  ∧ previousFailedSecond (run five_minutes [env_ok; env_ok; env_ok; env_ok] world_reject).2
      !! triple_b = Some true.
Proof. by vm_compute. Qed.

(** C9: folding a triple whose SNI is already known leaves the recorded
    time as it was (0) instead of setting it to the time of the fold
    (100). *)
Theorem accountForConnections_keeps_first_time :
  snis (stateOf (accountForConnections (MkState {[ "b" := 0 ]}) 100 triple_b
                   false [] 1 0)) !! "b" = Some 0.
Proof. by vm_compute. Qed.

(** C7, counterexample: when the lookup of the stats slot fails,
    the tick is skipped, yet the old connection it had collected is already
    deleted from the connection table. *)
Lemma tick_stats_error_modifies_table :
  mapIOError env_stats_fail world_old
  ∧ outcomeOf (tick five_minutes env_stats_fail world_old) = SkippedStats
  ∧ connectionMap world_old !! conn_old = Some (TupleData 0 "" SYN_RECEIVED)
  ∧ connectionMap (worldOf (tick five_minutes env_stats_fail world_old)) !! conn_old = None
  ∧ worldOf (tick five_minutes env_stats_fail world_old) ≠ world_old.
Proof.
  split; [right; split; [done|]; by eexists|].
  split; [by vm_compute|]. split; [by vm_compute|]. split; [by vm_compute|].
  intros Heq. apply (f_equal (λ w, connectionMap w !! conn_old)) in Heq.
  by vm_compute in Heq.
Qed.

(** ** The theorems at concrete inputs *)

Lemma accountForConnections_active_failed_witness :
  0 < 1
  ∧ ActiveFailedSeconds
      (incOf (accountForConnections newState 100 triple_b false [] 0 1)) = 1.
Proof.
  split; [lia|].
  destruct (accountForConnections_active_failed newState 100 triple_b false [] 0 1)
    as (_ & _ & H & _).
  apply H. lia.
Defined.

Lemma tick_consumes_oldest_stats_slot_witness :
  ∃ out,
    getOldestStatsAndCleanup env_ok (statsMap world_reject) (u64 (40 + 1) mod 20)
      = StatsOk (<[u64 (40 + 1) mod 20 := ∅]> (statsMap world_reject)) out
    ∧ statsMap (worldOf (tick five_minutes env_ok world_reject))
      = <[u64 (40 + 1) mod 20 := ∅]> (statsMap world_reject)
    ∧ out !! triple_b = Some (0, 1)
    ∧ u64 (40 + 1) mod 20 = (40 + 1) mod 20.
Proof.
  destruct (tick_consumes_oldest_stats_slot five_minutes env_ok world_reject
              {[ key_b := (0, 1) ]})
    as (out & Hget & Hs & _ & Hpad & _ & Hk).
  - reflexivity.
  - reflexivity.
  - reflexivity.
  - vm_compute. reflexivity.
  - intros innerKey [v Hv]. apply lookup_singleton_Some in Hv as [<- _].
    vm_compute. lia.
  - exists out. split; [exact Hget|]. split; [exact Hs|]. split.
    + destruct (Hpad) with (innerKey := key_b) (innerValue := (0, 1))
        as (ck & Hck & Hout).
      * intros k1 k2 [v1 H1] [v2 H2].
        apply lookup_singleton_Some in H1 as [<- _].
        apply lookup_singleton_Some in H2 as [<- _]. reflexivity.
      * intros k [v Hv]. apply lookup_singleton_Some in Hv as [<- _].
        vm_compute. reflexivity.
      * apply lookup_singleton_eq.
      * vm_compute in Hck. injection Hck as <-. exact Hout.
    + apply Hk; vm_compute; [discriminate|reflexivity].
Defined.

Lemma tick_drains_exactly_old_witness :
  connections_err env_ok = false
  ∧ scanConnections (connectionMap world_old) 21 !! conn_old
    = Some (TupleData 0 "" SYN_RECEIVED)
  ∧ u64 (STATS_SECONDS_COUNT + 0) = 0 + 20.
Proof.
  destruct (tick_drains_exactly_old five_minutes env_ok world_old eq_refl)
    as (_ & Hold & _ & Hsum).
  split; [reflexivity|]. split.
  - apply Hold. split; vm_compute; reflexivity.
  - apply Hsum; vm_compute; [discriminate|reflexivity].
Defined.

Lemma tick_map_error_skips_witness :
  mapIOError env_stats_fail world_old
  ∧ currentTickerClock (worldOf (tick five_minutes env_stats_fail world_old)) = 21
  ∧ sentIncs (eventsOf (tick five_minutes env_stats_fail world_old)) = [].
Proof.
  assert (H : mapIOError env_stats_fail world_old).
  { right. split; [reflexivity|]. eexists. vm_compute. reflexivity. }
  destruct (tick_map_error_skips five_minutes env_stats_fail world_old H)
    as (_ & _ & _ & Hc & _ & Hi & _).
  split; [exact H|]. split; [exact Hc|exact Hi].
Defined.


(** ** [AsSet] *)

Lemma Split_cons (c : ascii) (r : string) :
  Split (String c r) =
  if bool_decide (c = ","%char) then EmptyString :: Split r
  else match Split r with
       | x :: xs => String c x :: xs
       | [] => [String c EmptyString]
       end.
Proof.
  unfold Split. cbn [splitFields]. destruct (splitFields r) as [x xs].
  by destruct (bool_decide (c = ","%char)).
Qed.

Lemma Split_not_nil (s : string) : Split s ≠ [].
Proof. unfold Split. by destruct (splitFields s). Qed.

Lemma Split_app_comma (a b : string) : Split (a +:+ "," +:+ b) = Split a ++ Split b.
Proof.
  induction a as [|c a IH].
  - change ("" +:+ "," +:+ b) with (String ","%char b). by rewrite Split_cons.
  - change (String c a +:+ "," +:+ b) with (String c (a +:+ "," +:+ b)).
    rewrite !Split_cons, IH. case_bool_decide; [done|].
    destruct (Split a) eqn:E; [by apply Split_not_nil in E|done].
Qed.

Lemma Split_noComma (s : string) : noComma s = true → Split s = [s].
Proof.
  induction s as [|c s IH]; [done|]. cbn [noComma]. rewrite Split_cons.
  intros [Hc Hs]%andb_true_iff. apply negb_true_iff in Hc. rewrite Hc, IH; done.
Qed.

Lemma Split_fields_noComma (s : string) : Forall (λ x, noComma x = true) (Split s).
Proof.
  induction s as [|c s IH]; [by repeat constructor|]. rewrite Split_cons.
  case_bool_decide as Hc; [by constructor|].
  destruct (Split s) as [|x xs].
  - repeat constructor. cbn [noComma]. by rewrite bool_decide_eq_false_2.
  - apply Forall_cons in IH as [Hx Hxs]. constructor; [|done].
    cbn [noComma]. by rewrite bool_decide_eq_false_2.
Qed.

Lemma size_list_to_set_le (l : list string) :
  (size (list_to_set l : gset string) ≤ length l)%nat.
Proof.
  induction l as [|x xs IH]; [by rewrite list_to_set_nil, size_empty|].
  rewrite list_to_set_cons, size_union_alt, size_singleton. cbn [length].
  assert (size (list_to_set xs ∖ {[x]} : gset string) ≤ size (list_to_set xs : gset string))%nat
    by (apply subseteq_size, subseteq_difference_l; done).
  lia.
Qed.

(** X1: the set of a list with a comma in it is the union of the sets of
    the two sides of the comma; a trailing comma adds the empty entry. *)
Theorem AsSet_comma (a b : string) :
  AsSet (a +:+ "," +:+ b) = AsSet a ∪ AsSet b
  ∧ AsSet (a +:+ ",") = AsSet a ∪ {[ EmptyString ]}.
Proof.
  unfold AsSet. split.
  - by rewrite Split_app_comma, list_to_set_app_L.
  - change (a +:+ ",") with (a +:+ "," +:+ ""). rewrite Split_app_comma, list_to_set_app_L.
    cbn. by rewrite union_empty_r_L.
Qed.

(** X2: a list without a comma gives the set of that one entry, the empty
    string included: the set is never empty. *)
Theorem AsSet_single (list : string) :
  noComma list = true → AsSet list = {[ list ]}.
Proof.
  intros H. unfold AsSet. rewrite Split_noComma by done. cbn. by rewrite union_empty_r_L.
Qed.

Lemma AsSet_single_witness : AsSet "" = {[ EmptyString ]}.
Proof. apply (AsSet_single ""). reflexivity. Defined.

(** X3: no entry of the set contains a comma, and the set has at least one
    and at most one more entries than the list has commas. *)
Theorem AsSet_entries (list : string) :
  (∀ x, x ∈ AsSet list → noComma x = true)
  ∧ (1 ≤ size (AsSet list) ≤ 1 + countCommas list)%nat.
Proof.
  split.
  - intros x Hx. unfold AsSet in Hx. apply elem_of_list_to_set in Hx.
    by apply (proj1 (Forall_forall _ _) (Split_fields_noComma list)).
  - assert (Hlen : length (Split list) = (1 + countCommas list)%nat).
    { induction list as [|c s IH]; [done|]. rewrite Split_cons. cbn [countCommas].
      case_bool_decide; cbn [length]; [by rewrite IH|].
      destruct (Split s) eqn:E; [by apply Split_not_nil in E|]. cbn [length] in *. lia. }
    split.
    + destruct (Split list) as [|x xs] eqn:E; [by apply Split_not_nil in E|].
      unfold AsSet. rewrite E. rewrite list_to_set_cons.
      assert (size ({[x]} ∪ list_to_set xs : gset string) ≠ 0%nat); [|lia].
      apply size_non_empty_iff. intros Hemp.
      apply (not_elem_of_empty (C := gset string) x). rewrite <- Hemp.
      apply elem_of_union_l. by apply elem_of_singleton_2.
    + rewrite <- Hlen. unfold AsSet. apply size_list_to_set_le.
Qed.

(** X4: joining the fields of a list with commas gives the list back. *)
Theorem Join_Split (s : string) : Join (Split s) = s.
Proof.
  induction s as [|c s IH]; [done|]. rewrite Split_cons. case_bool_decide as Hc.
  - subst c. destruct (Split s) as [|x xs] eqn:E; [by apply Split_not_nil in E|].
    change (Join ("" :: x :: xs)) with ("" +:+ "," +:+ Join (x :: xs)).
    by rewrite IH.
  - destruct (Split s) as [|x xs] eqn:E; [by apply Split_not_nil in E|].
    rewrite <- IH. destruct xs; done.
Qed.

(** ** [Close] and [NewNetworkDataSource] *)

(** X5: [Close] closes the attachment and then the configuration, each only
    if it is still held, and leaves both fields nil; a second [Close]
    closes nothing and changes nothing. *)
Theorem Close_idempotent {C A : Type} (s : NetworkDataSource C A) :
  let r := Close s in
  r.2 = match attachment s with Some a => [CloseAttachment a] | None => [] end
        ++ match ebpfConfig s with Some c => [CloseConfig c] | None => [] end
  ∧ attachment r.1 = None ∧ ebpfConfig r.1 = None
  ∧ cidrs r.1 = cidrs s ∧ ports r.1 = ports s
  ∧ Close r.1 = (r.1, []).
Proof. destruct s as [ci po [c|] [a|]]; cbn; done. Qed.

(** X6: [NewNetworkDataSource] returns a data source exactly when the five
    calls it makes all succeed, and that data source holds the
    configuration, the attachment and the two sets.  The configuration is
    closed when attaching fails and on no other path: a failed
    initialisation of a map returns an error with the configuration still
    open. *)
Theorem NewNetworkDataSource_closes_config_on_attach_only {C A : Type}
    (su : setup C A) (ci po : gset string) :
  let r := NewNetworkDataSource su ci po in
  let init_failed := initCIDRMap_err su || initPortMap_err su || initStatsMap_err su in
  (newEBPFConfig su = None → r = (inl ErrNewEBPFConfig, []))
  ∧ (∀ ec, newEBPFConfig su = Some ec →
       (init_failed = true →
          r.2 = [] ∧ (r.1 = inl ErrInitCIDRMap ∨ r.1 = inl ErrInitPortMap
                      ∨ r.1 = inl ErrInitStatsMap))
       ∧ (init_failed = false → attachProgramToNetworkInterface su = None →
            r = (inl ErrAttach, [CloseConfig ec]))
       ∧ (init_failed = false → ∀ a, attachProgramToNetworkInterface su = Some a →
            r = (inr (MkNetworkDataSource ci po (Some ec) (Some a)), []))).
Proof.
  unfold NewNetworkDataSource.
  destruct su as [[ec|] e1 e2 e3 [a|]]; destruct e1, e2, e3; cbn;
    (split; [done|]); intros ec' [= <-] || intros ec' [=];
    repeat split; try done; try (intros; by auto); try (intros _ a' [= <-]; done).
Qed.

Lemma NewNetworkDataSource_closes_config_on_attach_only_witness :
  NewNetworkDataSource (MkSetup (Some 7) false true false (Some 9)) ∅ ∅
  = (inl ErrInitPortMap, [] : list (close_event Z Z))
  ∧ NewNetworkDataSource (MkSetup (Some 7) false false false (None : option Z)) ∅ ∅
    = (inl ErrAttach, [CloseConfig 7]).
Proof.
  destruct (NewNetworkDataSource_closes_config_on_attach_only
              (MkSetup (Some 7) false true false (Some 9)) ∅ ∅) as [_ H1].
  destruct (H1 7 eq_refl) as (Hi & _ & _). destruct (Hi eq_refl) as [He [Hr|[Hr|Hr]]];
    try discriminate Hr.
  destruct (NewNetworkDataSource_closes_config_on_attach_only
              (MkSetup (Some 7) false false false (None : option Z)) ∅ ∅) as [_ H2].
  destruct (H2 7 eq_refl) as (_ & Ha & _).
  split; [|exact (Ha eq_refl eq_refl)].
  destruct (NewNetworkDataSource (MkSetup (Some 7) false true false (Some 9)) ∅ ∅)
    as [r evs]. cbn [fst snd] in *. by rewrite He, Hr.
Defined.

(** ** More on [deleteExpiredSNIs] *)

Section ExpiryMore.

Variable Expiration : Z.

Lemma deleteExpiredSNIs_events_eq (s : State) (now : Z) :
  (deleteExpiredSNIs Expiration s now).2
  = DeleteMetrics <$> (filter (λ kv : string * Z, kv.2 + Expiration < now)
                              (map_to_list (snis s))).*1.
Proof.
  unfold deleteExpiredSNIs. destruct s as [m]. cbn [snis].
  by rewrite deleteExpiredSNIs_fold.
Qed.

Lemma deleteExpiredSNIs_snis_eq (s : State) (now : Z) :
  snis (deleteExpiredSNIs Expiration s now).1
  = filter (λ kv : string * Z, ¬ kv.2 + Expiration < now) (snis s).
Proof.
  apply map_eq. intros name.
  destruct (deleteExpiredSNIs_spec Expiration s now) as [Hl _]. rewrite Hl.
  rewrite map_lookup_filter. destruct (snis s !! name) as [t|]; [|done]. cbn.
  destruct (Z.ltb_spec (t + Expiration) now).
  - by rewrite option_guard_False by (cbn; lia).
  - by rewrite option_guard_True by (cbn; lia).
Qed.

(** X7: [deleteExpiredSNIs] forgets exactly the SNIs whose recorded time
    plus the retention window lies strictly before [now] (an SNI exactly
    at the limit is kept), keeps the recorded time of the others, and
    deletes the metrics of each forgotten SNI exactly once and of no
    other. *)
Theorem deleteExpiredSNIs_exactly_expired (s : State) (now : Z) :
  let r := deleteExpiredSNIs Expiration s now in
  snis r.1 = filter (λ kv : string * Z, now ≤ kv.2 + Expiration) (snis s)
  ∧ (∀ name, DeleteMetrics name ∈ r.2 ↔
             ∃ lastUpdate, snis s !! name = Some lastUpdate ∧ lastUpdate + Expiration < now)
  ∧ NoDup r.2
  ∧ Forall (λ ev, ∃ name, ev = DeleteMetrics name) r.2.
Proof.
  intros r. subst r. split; [|split; [|split]].
  - rewrite deleteExpiredSNIs_snis_eq. apply map_filter_ext. intros; cbn; lia.
  - apply deleteExpiredSNIs_spec.
  - rewrite deleteExpiredSNIs_events_eq. apply NoDup_fmap_2; [by intros ?? [=]|].
    apply NoDup_fmap_fst.
    + intros k v1 v2 [_ H1%elem_of_map_to_list]%list_elem_of_filter
        [_ H2%elem_of_map_to_list]%list_elem_of_filter. congruence.
    + apply NoDup_filter, NoDup_map_to_list.
  - rewrite deleteExpiredSNIs_events_eq. apply Forall_fmap, Forall_forall.
    intros name _. by exists name.
Qed.

(** X8: expiry composes: running [deleteExpiredSNIs] a second time, at the
    same or a later time, leaves the SNIs a single run at the later time
    leaves; at the same time the second run changes nothing and deletes no
    metrics. *)
Theorem deleteExpiredSNIs_twice (s : State) (now now' : Z) :
  now ≤ now' →
  let s1 := (deleteExpiredSNIs Expiration s now).1 in
  snis (deleteExpiredSNIs Expiration s1 now').1
  = snis (deleteExpiredSNIs Expiration s now').1
  ∧ snis (deleteExpiredSNIs Expiration s1 now).1 = snis s1
  ∧ (deleteExpiredSNIs Expiration s1 now).2 = [].
Proof.
  intros Hle s1. subst s1. rewrite !deleteExpiredSNIs_snis_eq. split; [|split].
  - apply map_eq. intros name. rewrite !map_lookup_filter.
    destruct (snis s !! name) as [t|]; [|done]. cbn.
    destruct (decide (t + Expiration < now)), (decide (t + Expiration < now')); try lia.
    + by rewrite option_guard_False, option_guard_False by (cbn; lia).
    + rewrite (option_guard_True (¬ _ < now)) by (cbn; lia). cbn.
      by rewrite option_guard_False by (cbn; lia).
    + rewrite (option_guard_True (¬ _ < now)) by (cbn; lia). cbn.
      by rewrite option_guard_True by (cbn; lia).
  - apply map_eq. intros name. rewrite !map_lookup_filter.
    destruct (snis s !! name) as [t|]; [|done]. cbn.
    destruct (decide (t + Expiration < now)).
    + by rewrite option_guard_False by (cbn; lia).
    + rewrite option_guard_True by (cbn; lia). cbn.
      by rewrite option_guard_True by (cbn; lia).
  - rewrite deleteExpiredSNIs_events_eq, deleteExpiredSNIs_snis_eq.
    assert (filter (λ kv : string * Z, kv.2 + Expiration < now)
              (map_to_list (filter (λ kv : string * Z, ¬ kv.2 + Expiration < now) (snis s)))
            = []) as ->; [|done].
    destruct (filter _ _) as [|x l] eqn:E; [done|].
    assert (Hx : x ∈ x :: l) by left. rewrite <- E in Hx.
    apply list_elem_of_filter in Hx as [Hlt Hin%elem_of_map_to_list'].
    apply map_lookup_filter_Some in Hin as [_ Hn]. cbn in Hn. lia.
Qed.

End ExpiryMore.

Lemma deleteExpiredSNIs_twice_witness :
  snis (deleteExpiredSNIs 300
          (deleteExpiredSNIs 300 (MkState {[ "a" := 0; "b" := 200 ]}) 400).1 600).1
  = snis (deleteExpiredSNIs 300 (MkState {[ "a" := 0; "b" := 200 ]}) 600).1.
Proof.
  destruct (deleteExpiredSNIs_twice 300 (MkState {[ "a" := 0; "b" := 200 ]}) 400 600)
    as [H _]; [lia|exact H].
Defined.

(** ** More on [isConnectionOld] *)

(** X9: over the whole range of the two unsigned 64-bit arguments, a
    connection is old exactly when the current clock exceeds its first
    tick by more than 20, unless the first tick lies within 20 of 2^64:
    there the sum wraps around and the connection is old as soon as the
    clock exceeds first tick + 20 - 2^64. *)
Theorem isConnectionOld_uint64 (tfp cur : Z) :
  0 ≤ tfp < 2 ^ 64 →
  isConnectionOld tfp cur = true ↔
    (tfp < 2 ^ 64 - 20 ∧ tfp + 20 < cur) ∨ (2 ^ 64 - 20 ≤ tfp ∧ tfp + 20 - 2 ^ 64 < cur).
Proof.
  intros Hr. rewrite isConnectionOld_spec. unfold u64, STATS_SECONDS_COUNT.
  destruct (decide (tfp < 2 ^ 64 - 20)).
  - rewrite Z.mod_small by lia. lia.
  - replace (20 + tfp) with ((tfp + 20 - 2 ^ 64) + 1 * 2 ^ 64) by lia.
    rewrite Z.mod_add by lia. rewrite Z.mod_small by lia. lia.
Qed.

Lemma isConnectionOld_uint64_witness :
  isConnectionOld (2 ^ 64 - 1) 20 = true ∧ isConnectionOld 0 20 = false.
Proof.
  split.
  - apply (isConnectionOld_uint64 (2 ^ 64 - 1) 20); [vm_compute; split; [discriminate|reflexivity]|].
    right. vm_compute. split; [discriminate|reflexivity].
  - reflexivity.
Defined.

(** ** More on [accountForConnections] *)

Lemma countState_nonneg (st : conn_state) (l : list tupleData) : 0 ≤ countState st l.
Proof. unfold countState. lia. Qed.

Lemma accountForConnections_inc_eq (s : State) (now : Z) (connKey : ConnKey)
    (prev : bool) (stale : list tupleData) (succ fail : Z) :
  let active :=
    (0 <? Z.of_nat (length stale)) || (0 <? succ) || (0 <? fail) in
  let failure := existsb staleFailure stale || (0 <? fail) in
  let failed := (prev && negb active) || failure in
  incOf (accountForConnections s now connKey prev stale succ fail)
  = MkInc (connSNI connKey) (sourceIP connKey) (destIP connKey)
      (countState SNI_RECEIVED stale + succ)
      (countState RST_SENT_BY_SERVER stale + fail)
      (countState RST_SENT_BY_CLIENT stale)
      (if failure then 1 else 0) (if active then 1 else 0) (if failed then 1 else 0)
  ∧ failedSecondOf (accountForConnections s now connKey prev stale succ fail) = failed.
Proof.
  unfold incOf, failedSecondOf, accountForConnections. rewrite foldl_accountStale.
  cbn [fst snd orb].
  destruct (existsb staleFailure stale), (0 <? fail), (0 <? Z.of_nat (length stale)),
    (0 <? succ), prev; cbn; split; try done; f_equal; lia.
Qed.

Lemma existsb_staleFailure_length (stale : list tupleData) :
  existsb staleFailure stale = true → (0 <? Z.of_nat (length stale)) = true.
Proof. destruct stale; [done|]. intros _. cbn [length]. apply Z.ltb_lt. lia. Qed.

(** X10: in every [Inc] the labels are those of the triple, no counter is
    negative when the two stats counts are not, and a second is an active
    failed one exactly when it is both active and failed. *)
Theorem accountForConnections_inc_invariants (s : State) (now : Z) (connKey : ConnKey)
    (prev : bool) (stale : list tupleData) (succ fail : Z) :
  0 ≤ succ → 0 ≤ fail →
  let inc := incOf (accountForConnections s now connKey prev stale succ fail) in
  labels inc = connKey
  ∧ 0 ≤ SuccessfulConnections inc ∧ 0 ≤ RejectedConnections inc
  ∧ 0 ≤ RejectedConnectionsByClient inc
  ∧ ActiveFailedSeconds inc = ActiveSeconds inc * FailedSeconds inc.
Proof.
  intros Hs Hf inc. subst inc.
  destruct (accountForConnections_inc_eq s now connKey prev stale succ fail) as [-> _].
  pose proof (countState_nonneg SNI_RECEIVED stale).
  pose proof (countState_nonneg RST_SENT_BY_SERVER stale).
  pose proof (countState_nonneg RST_SENT_BY_CLIENT stale).
  pose proof (existsb_staleFailure_length stale) as He.
  unfold labels. cbn. destruct connKey. cbn.
  repeat split; try done; try lia.
  destruct (existsb staleFailure stale), (0 <? fail), (0 <? Z.of_nat (length stale)),
    (0 <? succ), prev; cbn; try done; by specialize (He eq_refl).
Qed.

Lemma accountForConnections_inc_invariants_witness :
  ActiveFailedSeconds (incOf (accountForConnections newState 100 triple_b true [] 0 0))
  = ActiveSeconds (incOf (accountForConnections newState 100 triple_b true [] 0 0))
    * FailedSeconds (incOf (accountForConnections newState 100 triple_b true [] 0 0)).
Proof.
  destruct (accountForConnections_inc_invariants newState 100 triple_b true [] 0 0)
    as (_ & _ & _ & _ & H); [lia|lia|exact H].
Defined.

(** X11: the flag carried to the next tick: a failure (a stale tuple in
    SYN_RECEIVED, SYNACK_RECEIVED or RST_SENT_BY_SERVER, or a failed
    connection in the stats) sets it; a second that is active without
    failure clears it; a second without any activity passes the previous
    flag on, in an [Inc] whose only possibly non-zero field is the failed
    second. *)
Theorem accountForConnections_carry (s : State) (now : Z) (connKey : ConnKey)
    (prev : bool) (stale : list tupleData) (succ fail : Z) :
  let r := accountForConnections s now connKey prev stale succ fail in
  let failure := existsb staleFailure stale || (0 <? fail) in
  (failure = true → failedSecondOf r = true)
  ∧ (failure = false → (stale ≠ [] ∨ 0 < succ) → failedSecondOf r = false)
  ∧ (stale = [] → succ = 0 → fail = 0 →
       failedSecondOf r = prev
       ∧ incOf r = MkInc (connSNI connKey) (sourceIP connKey) (destIP connKey)
                     0 0 0 0 0 (if prev then 1 else 0)).
Proof.
  intros r failure. subst r failure.
  destruct (accountForConnections_inc_eq s now connKey prev stale succ fail) as [-> ->].
  split; [|split].
  - by intros ->; rewrite orb_true_r.
  - intros -> Hact. rewrite orb_false_r.
    destruct Hact as [Hs|Hs].
    + destruct stale; [done|]. cbn [length].
      replace (0 <? Z.of_nat (S (length stale))) with true by (symmetry; apply Z.ltb_lt; lia).
      cbn. by rewrite andb_false_r.
    + apply Z.ltb_lt in Hs. rewrite Hs. rewrite orb_true_r. cbn. by rewrite andb_false_r.
  - intros -> -> ->. cbn. rewrite andb_true_r, orb_false_r. done.
Qed.

Lemma accountForConnections_carry_witness :
  failedSecondOf (accountForConnections newState 100 triple_b true [] 0 0) = true
  ∧ failedSecondOf (accountForConnections newState 100 triple_b true [] 1 0) = false
  ∧ failedSecondOf (accountForConnections newState 100 triple_b false [] 0 1) = true.
Proof.
  destruct (accountForConnections_carry newState 100 triple_b true [] 0 0) as (_ & _ & H1).
  destruct (accountForConnections_carry newState 100 triple_b true [] 1 0) as (_ & H2 & _).
  destruct (accountForConnections_carry newState 100 triple_b false [] 0 1) as (H3 & _ & _).
  split; [|split].
  - apply H1; reflexivity.
  - apply H2; [reflexivity|right; lia].
  - apply H3. reflexivity.
Defined.

Lemma countState_Permutation (st : conn_state) (l l' : list tupleData) :
  l ≡ₚ l' → countState st l = countState st l'.
Proof. intros H. unfold countState. by rewrite H. Qed.

Lemma existsb_Permutation {A : Type} (f : A → bool) (l l' : list A) :
  l ≡ₚ l' → existsb f l = existsb f l'.
Proof.
  induction 1 as [|x l l' _ IH|x y l|l l' l'' _ IH1 _ IH2]; cbn.
  - done.
  - by rewrite IH.
  - by destruct (f x), (f y).
  - by rewrite IH1.
Qed.

(** X12: the result of the folding rule does not depend on the order of
    the stale connections. *)
Theorem accountForConnections_Permutation (s : State) (now : Z) (connKey : ConnKey)
    (prev : bool) (stale stale' : list tupleData) (succ fail : Z) :
  stale ≡ₚ stale' →
  accountForConnections s now connKey prev stale succ fail
  = accountForConnections s now connKey prev stale' succ fail.
Proof.
  intros H. unfold accountForConnections. rewrite !foldl_accountStale.
  rewrite !(countState_Permutation _ stale stale' H).
  rewrite (existsb_Permutation _ stale stale' H).
  by rewrite (Permutation_length H).
Qed.

Lemma accountForConnections_Permutation_witness :
  accountForConnections newState 100 triple_b false
    [TupleData 0 "b" SNI_RECEIVED; TupleData 1 "b" RST_SENT_BY_CLIENT] 0 0
  = accountForConnections newState 100 triple_b false
    [TupleData 1 "b" RST_SENT_BY_CLIENT; TupleData 0 "b" SNI_RECEIVED] 0 0.
Proof. apply accountForConnections_Permutation. apply perm_swap. Defined.


(** X14: the folding rule registers the SNI of its triple and touches no
    other entry of the registry: afterwards the registry holds the SNI, and
    every entry it held before is as it was. *)
Theorem accountForConnections_registers (s : State) (now : Z) (connKey : ConnKey)
    (prev : bool) (stale : list tupleData) (succ fail : Z) :
  let s' := stateOf (accountForConnections s now connKey prev stale succ fail) in
  is_Some (snis s' !! connSNI connKey)
  ∧ snis s ⊆ snis s'
  ∧ dom (snis s') = dom (snis s) ∪ {[ connSNI connKey ]}.
Proof.
  intros s'. subst s'. rewrite accountForConnections_snis.
  destruct (snis s !! connSNI connKey) as [t|] eqn:E.
  - split; [by rewrite E|]. split; [done|].
    apply elem_of_dom_2 in E. symmetry. rewrite union_comm_L.
    apply subseteq_union_1_L. by apply singleton_subseteq_l.
  - split; [by rewrite lookup_insert_eq|]. split; [by apply insert_subseteq|].
    rewrite dom_insert_L. apply union_comm_L.
Qed.

(** ** More on [getOldestStatsAndCleanup] *)

Lemma deleteInner_subseteq (m : gmap string (Z * Z)) (l : list string) :
  deleteInner m l ⊆ m.
Proof.
  apply map_subseteq_spec. intros k v. rewrite deleteInner_lookup. by case_decide.
Qed.

Lemma getOldestStatsAndCleanup_cases (e : env) (stats : gmap Z (gmap string (Z * Z)))
    (statsKey : Z) :
  getOldestStatsAndCleanup e stats statsKey = StatsPanic
  ∨ getOldestStatsAndCleanup e stats statsKey = StatsErr stats
  ∨ ∃ innerMap l,
      stats !! statsKey = Some innerMap
      ∧ (getOldestStatsAndCleanup e stats statsKey
           = StatsErr (<[statsKey := deleteInner innerMap l]> stats)
         ∨ ∃ out, getOldestStatsAndCleanup e stats statsKey
                  = StatsOk (<[statsKey := deleteInner innerMap l]> stats) out).
Proof.
  unfold getOldestStatsAndCleanup. destruct (stats_lookup_err e); [by right; left|].
  destruct (stats !! statsKey) as [innerMap|] eqn:E; [|by right; left].
  destruct (collectInner _) as [out|]; [|by left].
  right; right. exists innerMap, (innerEntries e innerMap).*1. split; [done|].
  case_bool_decide; [by left|right; by exists out].
Qed.

Lemma shrunk_slot (stats : gmap Z (gmap string (Z * Z))) (statsKey : Z)
    (innerMap : gmap string (Z * Z)) (l : list string) :
  stats !! statsKey = Some innerMap →
  let stats' := <[statsKey := deleteInner innerMap l]> stats in
  dom stats' = dom stats
  ∧ (∀ k, k ≠ statsKey → stats' !! k = stats !! k)
  ∧ (∀ k m', stats' !! k = Some m' → ∃ m, stats !! k = Some m ∧ m' ⊆ m).
Proof.
  intros Hk stats'. subst stats'. split; [|split].
  - rewrite dom_insert_L. apply elem_of_dom_2 in Hk.
    apply subseteq_union_1_L. by apply singleton_subseteq_l.
  - intros k Hne. by rewrite lookup_insert_ne.
  - intros k m'. rewrite lookup_insert. case_decide as Heq.
    + subst k. intros [= <-]. exists innerMap. split; [done|]. apply deleteInner_subseteq.
    + intros H. by exists m'.
Qed.

(** X15: whatever [getOldestStatsAndCleanup] returns, the stats table
    keeps its slots, every slot but the one asked for is untouched and that
    one only loses entries; when the lookup of the slot fails (an error of
    the map, or no such slot) the table is returned as it was, with an
    error. *)
Theorem getOldestStatsAndCleanup_only_deletes (e : env)
    (stats : gmap Z (gmap string (Z * Z))) (statsKey : Z) :
  (∀ stats',
     (getOldestStatsAndCleanup e stats statsKey = StatsErr stats'
      ∨ ∃ out, getOldestStatsAndCleanup e stats statsKey = StatsOk stats' out) →
     dom stats' = dom stats
     ∧ (∀ k, k ≠ statsKey → stats' !! k = stats !! k)
     ∧ (∀ k m', stats' !! k = Some m' → ∃ m, stats !! k = Some m ∧ m' ⊆ m))
  ∧ ((stats_lookup_err e = true ∨ stats !! statsKey = None) →
     getOldestStatsAndCleanup e stats statsKey = StatsErr stats).
Proof.
  split.
  - intros stats' Hres.
    destruct (getOldestStatsAndCleanup_cases e stats statsKey)
      as [Hp|[He|(innerMap & l & Hk & [He|[out Ho]])]].
    + rewrite Hp in Hres. by destruct Hres as [|[? ?]].
    + rewrite He in Hres. destruct Hres as [[= <-]|[? ?]]; [|done].
      split; [done|]. split; [done|]. intros k m' H. by exists m'.
    + rewrite He in Hres. destruct Hres as [[= <-]|[? ?]]; [|done]. by apply shrunk_slot.
    + rewrite Ho in Hres. destruct Hres as [|[out' Hres]]; [done|].
      injection Hres as <- _. by apply shrunk_slot.
  - unfold getOldestStatsAndCleanup. intros [Hl | Hn]; [by rewrite Hl|]. rewrite Hn. by destruct (stats_lookup_err e).
Qed.

Lemma getOldestStatsAndCleanup_only_deletes_witness :
  getOldestStatsAndCleanup env_stats_fail (statsMap world_reject) 1
  = StatsErr (statsMap world_reject).
Proof.
  destruct (getOldestStatsAndCleanup_only_deletes env_stats_fail (statsMap world_reject) 1)
    as [_ H].
  apply H. left. reflexivity.
Defined.

Lemma size_foldl_delete (ks : list string) (m : gmap string (Z * Z)) :
  NoDup ks → (∀ k, k ∈ ks → is_Some (m !! k)) →
  size (foldl (λ m k, delete k m) m ks) = (size m - length ks)%nat.
Proof.
  revert m. induction ks as [|k ks IH]; intros m Hnd Hin; [cbn; lia|].
  apply NoDup_cons in Hnd as [Hk Hnd]. cbn [foldl length]. rewrite IH.
  - rewrite map_size_delete_Some by (apply Hin; left). lia.
  - done.
  - intros k' Hk'. rewrite lookup_delete_ne by (intros ->; done). apply Hin. by right.
Qed.

Lemma collectInner_take (l : list (string * (Z * Z))) :
  Forall (λ kv : string * (Z * Z), (8 ≤ String.length kv.1)%nat) l →
  is_Some (collectInner l).
Proof. intros H. destruct (collectInner_spec l H) as (out & -> & _). by eexists. Qed.

(** X16: when the iteration over the slot fails after [n] entries, the
    entries read so far are deleted from the slot all the same and the
    call returns the error: their counts are dropped, the entries not yet
    read stay. *)
Theorem getOldestStatsAndCleanup_iteration_error (e : env)
    (stats : gmap Z (gmap string (Z * Z))) (statsKey : Z)
    (innerMap : gmap string (Z * Z)) (n : nat) :
  stats_lookup_err e = false →
  stats_iter_err e = Some n →
  stats !! statsKey = Some innerMap →
  (∀ innerKey, is_Some (innerMap !! innerKey) → (8 ≤ String.length innerKey)%nat) →
  ∃ innerMap',
    getOldestStatsAndCleanup e stats statsKey = StatsErr (<[statsKey := innerMap']> stats)
    ∧ (∀ kv, kv ∈ take n (map_to_list innerMap) → innerMap' !! kv.1 = None)
    ∧ (∀ innerKey, innerKey ∉ (take n (map_to_list innerMap)).*1 →
                   innerMap' !! innerKey = innerMap !! innerKey)
    ∧ size innerMap' = (size innerMap - n)%nat.
Proof.
  intros Hl Hi Hk Hlen.
  set (read := take n (map_to_list innerMap)).
  assert (Hsub : ∀ kv, kv ∈ read → kv ∈ map_to_list innerMap).
  { intros kv Hkv. subst read. apply elem_of_take in Hkv as (i & Hi' & _).
    by eapply list_elem_of_lookup_2. }
  assert (Hall : Forall (λ kv : string * (Z * Z), (8 ≤ String.length kv.1)%nat) read).
  { apply Forall_forall. intros [k v] Hkv. apply Hsub, elem_of_map_to_list in Hkv.
    apply Hlen. by eexists. }
  destruct (collectInner_spec read Hall) as (out & Hout & _).
  exists (deleteInner innerMap read.*1). split; [|split; [|split]].
  - unfold getOldestStatsAndCleanup, innerEntries. rewrite Hl, Hk, Hi. fold read.
    rewrite Hout. rewrite bool_decide_eq_true_2; [done|by eexists].
  - intros kv Hkv. rewrite deleteInner_lookup. rewrite decide_True; [done|].
    apply list_elem_of_fmap. by exists kv.
  - intros innerKey Hnot. rewrite deleteInner_lookup. by rewrite decide_False.
  - unfold deleteInner. rewrite size_foldl_delete.
    + rewrite length_fmap. subst read. rewrite length_take, length_map_to_list. lia.
    + subst read. rewrite fmap_take. apply (sublist_NoDup _ ((map_to_list innerMap).*1)); [apply NoDup_fst_map_to_list|apply sublist_take].
    + intros k [[k' v] [-> Hkv]]%list_elem_of_fmap. apply Hsub, elem_of_map_to_list in Hkv.
      by eexists.
Qed.

Lemma getOldestStatsAndCleanup_iteration_error_witness :
  ∃ innerMap',
    getOldestStatsAndCleanup (MkEnv false false (Some 1%nat) false (λ _, 100) 100)
      (statsMap world_reject) 1
    = StatsErr (<[1 := innerMap']> (statsMap world_reject))
    ∧ size innerMap' = 0%nat.
Proof.
  destruct (getOldestStatsAndCleanup_iteration_error
              (MkEnv false false (Some 1%nat) false (λ _, 100) 100)
              (statsMap world_reject) 1 {[ key_b := (0, 1) ]} 1)
    as (innerMap' & Hget & _ & _ & Hsize).
  - reflexivity.
  - reflexivity.
  - vm_compute. reflexivity.
  - intros innerKey [v Hv]. apply lookup_singleton_Some in Hv as [<- _]. vm_compute. lia.
  - exists innerMap'. split; [exact Hget|]. rewrite Hsize, map_size_singleton. reflexivity.
Defined.

Lemma collectInner_size (l : list (string * (Z * Z))) :
  Forall (λ kv : string * (Z * Z), (8 ≤ String.length kv.1)%nat) l →
  ∃ out, collectInner l = Some out
    ∧ (size out ≤ length l)%nat
    ∧ (NoDup l.*1 →
       (∀ k1 k2 ck, k1 ∈ l.*1 → k2 ∈ l.*1 →
          innerKeyToConnKey k1 = Some ck → innerKeyToConnKey k2 = Some ck → k1 = k2) →
       size out = length l).
Proof.
  induction l as [|[ik v] l IH] using rev_ind; intros Hall.
  - exists ∅. split; [done|]. by rewrite map_size_empty.
  - apply Forall_app in Hall as [Hl Hkv]. apply Forall_inv in Hkv. cbn [fst] in Hkv.
    destruct (IH Hl) as (out & Hout & Hle & Heq).
    destruct (collectInner_spec l Hl) as (out' & Hout' & HA & _).
    assert (out' = out) as -> by congruence.
    destruct (innerKeyToConnKey_is_Some ik Hkv) as [ck Hck].
    exists (<[ck := v]> out). rewrite collectInner_snoc, Hout. cbn. rewrite Hck. cbn.
    split; [done|]. rewrite length_app. cbn [length]. split.
    + rewrite map_size_insert. destruct (out !! ck); cbn; lia.
    + rewrite fmap_app. cbn [fmap list_fmap fst]. intros Hnd Hinj.
      apply NoDup_app in Hnd as (Hnd & Hfresh & _).
      rewrite map_size_insert_None.
      * rewrite Heq; [lia|done|].
        intros k1 k2 ck' H1 H2. apply Hinj; apply elem_of_app; by left.
      * destruct (out !! ck) as [v'|] eqn:E; [|done]. exfalso.
        destruct (HA _ _ E) as (ik' & Hin & Hck').
        assert (Hin' : ik' ∈ l.*1) by (apply list_elem_of_fmap; by exists (ik', v')).
        assert (ik' = ik) as ->.
        { apply (Hinj ik' ik ck); try done.
          - apply elem_of_app. by left.
          - apply elem_of_app. right. by left. }
        apply (Hfresh ik Hin'). by left.
Qed.

(** X17: [getOldestStatsAndCleanup] never returns more records than the
    slot has entries, and exactly as many when the keys of the slot have
    one length and a NUL-padded SNI: then no entry is lost in the map of
    records. *)
Theorem getOldestStatsAndCleanup_record_count (e : env)
    (stats : gmap Z (gmap string (Z * Z))) (statsKey : Z)
    (innerMap : gmap string (Z * Z)) :
  stats_lookup_err e = false →
  stats_iter_err e = None →
  stats !! statsKey = Some innerMap →
  (∀ innerKey, is_Some (innerMap !! innerKey) → (8 ≤ String.length innerKey)%nat) →
  ∃ out,
    getOldestStatsAndCleanup e stats statsKey = StatsOk (<[statsKey := ∅]> stats) out
    ∧ (size out ≤ size innerMap)%nat
    ∧ ((∀ k1 k2, is_Some (innerMap !! k1) → is_Some (innerMap !! k2) →
                 String.length k1 = String.length k2) →
       (∀ k, is_Some (innerMap !! k) → paddedKey k) →
       size out = size innerMap).
Proof.
  intros Hl Hi Hk Hlen.
  assert (Hin : ∀ k, k ∈ (map_to_list innerMap).*1 → is_Some (innerMap !! k)).
  { intros k [[k' v] [-> Hkv%elem_of_map_to_list]]%list_elem_of_fmap. by eexists. }
  assert (Hall : Forall (λ kv : string * (Z * Z), (8 ≤ String.length kv.1)%nat)
                        (map_to_list innerMap)).
  { apply Forall_forall. intros [k v] Hkv. apply Hlen, Hin, list_elem_of_fmap.
    by exists (k, v). }
  destruct (collectInner_size _ Hall) as (out & Hout & Hle & Heq).
  rewrite length_map_to_list in Hle, Heq.
  exists out. split; [|split; [done|]].
  - unfold getOldestStatsAndCleanup, innerEntries. rewrite Hl, Hk, Hi, Hout.
    rewrite deleteInner_all. rewrite bool_decide_eq_false_2; [done|]. by intros [? ?].
  - intros Hsame Hpad. apply Heq; [apply NoDup_fst_map_to_list|].
    intros k1 k2 ck H1 H2 Hc1 Hc2.
    apply (innerKeyToConnKey_inj k1 k2 ck); auto.
Qed.

Lemma getOldestStatsAndCleanup_record_count_witness :
  ∃ out,
    getOldestStatsAndCleanup env_ok (statsMap world_reject) 1
      = StatsOk (<[1 := ∅]> (statsMap world_reject)) out
    ∧ size out = 1%nat.
Proof.
  destruct (getOldestStatsAndCleanup_record_count env_ok (statsMap world_reject) 1
              {[ key_b := (0, 1) ]})
    as (out & Hget & _ & Heq).
  - reflexivity.
  - reflexivity.
  - vm_compute. reflexivity.
  - intros innerKey [v Hv]. apply lookup_singleton_Some in Hv as [<- _]. vm_compute. lia.
  - exists out. split; [exact Hget|]. rewrite Heq.
    + apply map_size_singleton.
    + intros k1 k2 [v1 H1] [v2 H2].
      apply lookup_singleton_Some in H1 as [<- _].
      apply lookup_singleton_Some in H2 as [<- _]. reflexivity.
    + intros k [v Hv]. apply lookup_singleton_Some in Hv as [<- _]. vm_compute. reflexivity.
Defined.

(** ** More on one tick *)

Lemma tripleResult_account (sv : gmap ConnKey (Z * Z))
    (stale : gmap ConnKey (list tupleData)) (prev : gmap ConnKey bool) (k : ConnKey)
    (s : State) (now : Z) :
  let r := accountForConnections s now k (default false (prev !! k))
             (default [] (stale !! k)) (statsCounts sv k).1 (statsCounts sv k).2 in
  (incOf r, failedSecondOf r) = tripleResult sv stale prev k.
Proof.
  unfold tripleResult. cbn zeta.
  destruct (accountForConnections_inc_eq s now k (default false (prev !! k))
              (default [] (stale !! k)) (statsCounts sv k).1 (statsCounts sv k).2)
    as [-> ->].
  destruct (accountForConnections_inc_eq newState 0 k (default false (prev !! k))
              (default [] (stale !! k)) (statsCounts sv k).1 (statsCounts sv k).2)
    as [-> ->].
  done.
Qed.

Lemma tripleResult_prev_ext (sv : gmap ConnKey (Z * Z))
    (stale stale' : gmap ConnKey (list tupleData)) (prev prev' : gmap ConnKey bool)
    (k : ConnKey) :
  prev !! k = prev' !! k → default [] (stale !! k) = default [] (stale' !! k) →
  tripleResult sv stale prev k = tripleResult sv stale' prev' k.
Proof. unfold tripleResult. by intros -> ->. Qed.

Lemma sentIncs_SendInc (i : Inc) : sentIncs [SendInc i] = [i].
Proof. done. Qed.

Section TickMore.

Variable Expiration : Z.

Lemma foldTriple_step (e : env) (sv : gmap ConnKey (Z * Z))
    (stale : gmap ConnKey (list tupleData)) (prev : gmap ConnKey bool) (st : State)
    (evs : list event) (k : ConnKey) :
  ∃ prev' st' logs,
    foldTriple e sv stale (prev, st, evs) k
    = (prev', st', evs ++ logs ++ [SendInc (tripleResult sv stale prev k).1])
    ∧ prev' !! k = Some (tripleResult sv stale prev k).2
    ∧ (∀ k', k' ≠ k → prev' !! k' = prev !! k')
    ∧ Forall (λ ev, isPut ev = false ∧ isSend ev = false) logs.
Proof.
  unfold foldTriple.
  set (prev0 := match prev !! k with Some _ => prev | None => <[k:=false]> prev end).
  assert (Hd : default false (prev0 !! k) = default false (prev !! k)).
  { subst prev0. destruct (prev !! k) eqn:E; [by rewrite E|by rewrite lookup_insert_eq]. }
  assert (Hne : ∀ k', k' ≠ k → prev0 !! k' = prev !! k').
  { intros k' Hk'. subst prev0. destruct (prev !! k); [done|]. by rewrite lookup_insert_ne. }
  assert (Hc : match sv !! k with Some c => c | None => (0, 0) end
               = ((statsCounts sv k).1, (statsCounts sv k).2)).
  { unfold statsCounts. by destruct (sv !! k) as [[? ?]|]. }
  rewrite Hc, Hd.
  pose proof (tripleResult_account sv stale prev k st (now_fold e k)) as Hr.
  pose proof (accountForConnections_logs st (now_fold e k) k (default false (prev !! k))
                (default [] (stale !! k)) (statsCounts sv k).1 (statsCounts sv k).2) as Hg.
  cbn zeta in Hr.
  destruct (accountForConnections _ _ _ _ _ _ _) as [[[st' logs] inc] fs].
  unfold incOf, failedSecondOf in Hr. cbn in Hr, Hg. rewrite <- Hr. cbn [fst snd].
  exists (<[k := fs]> prev0), st', logs. split; [done|]. split; [by rewrite lookup_insert_eq|].
  split; [|done]. intros k' Hk'. rewrite lookup_insert_ne by done. by apply Hne.
Qed.

(** The loop over [sniSet], triple by triple. *)
Lemma foldl_foldTriple_exact (e : env) (sv : gmap ConnKey (Z * Z))
    (stale : gmap ConnKey (list tupleData)) (keys : list ConnKey)
    (prev : gmap ConnKey bool) (st : State) (evs : list event) :
  NoDup keys →
  let r := foldl (foldTriple e sv stale) (prev, st, evs) keys in
  sentIncs r.2 = sentIncs evs ++ ((λ k, (tripleResult sv stale prev k).1) <$> keys)
  ∧ (∀ k, r.1.1 !! k = if decide (k ∈ keys) then Some (tripleResult sv stale prev k).2
                       else prev !! k).
Proof.
  revert prev st evs. induction keys as [|k keys IH]; intros prev st evs Hnd.
  - cbn. rewrite app_nil_r. split; [done|]. intros k.
    by rewrite decide_False by apply not_elem_of_nil.
  - apply NoDup_cons in Hnd as [Hk Hnd]. cbn [foldl].
    destruct (foldTriple_step e sv stale prev st evs k)
      as (prev' & st' & logs & -> & Hpk & Hpne & Hlogs).
    destruct (IH prev' st' (evs ++ logs ++ [SendInc (tripleResult sv stale prev k).1]) Hnd)
      as [Hs Hp].
    assert (Hext : ∀ k', k' ∈ keys →
              tripleResult sv stale prev' k' = tripleResult sv stale prev k').
    { intros k' Hk'. apply tripleResult_prev_ext; [|done]. apply Hpne. by intros ->. }
    split.
    + rewrite Hs, !sentIncs_app, (sentIncs_no_send logs Hlogs), sentIncs_SendInc.
      rewrite fmap_cons, <- !app_assoc. cbn [app]. do 2 f_equal.
      apply list_fmap_ext. intros i k' Hik. rewrite Hext; [done|].
      by eapply list_elem_of_lookup_2.
    + intros j. rewrite Hp. destruct (decide (j ∈ keys)) as [Hj|Hj].
      * rewrite decide_True by (by right). by rewrite Hext.
      * destruct (decide (j = k)) as [->|Hjk].
        -- by rewrite decide_True by left.
        -- rewrite decide_False by (intros [?|?]%elem_of_cons; done). by apply Hpne.
Qed.

Lemma tripleResult_stale_empty (sv : gmap ConnKey (Z * Z)) (X : gset ConnKey)
    (prev : gmap ConnKey bool) (k : ConnKey) :
  tripleResult sv (gset_to_gmap [] X) prev k = tripleResult sv ∅ prev k.
Proof.
  apply tripleResult_prev_ext; [done|]. rewrite lookup_gset_to_gmap, lookup_empty.
  by case_guard.
Qed.

(** The second half of a tick when no connection is old. *)
Lemma accountAndAdvance_no_old (e : env) (w : world)
    (conns : gmap tuple_key_t tupleData) (stats : gmap Z (gmap string (Z * Z)))
    (sv : gmap ConnKey (Z * Z)) :
  let r := accountAndAdvance Expiration e w conns stats ∅ sv [] in
  let cur := currentTickerClock w in
  outcomeOf r = (if ticker_put_err e then ClockPutFailed else Committed)
  ∧ connectionMap (worldOf r) = conns ∧ statsMap (worldOf r) = stats
  ∧ currentTickerClock (worldOf r) = u64 (cur + 1)
  ∧ tickerClockMap (worldOf r)
    = (if ticker_put_err e then tickerClockMap w else u64 (cur + 1))
  ∧ sentIncs (eventsOf r)
    = (λ k, (tripleResult sv ∅ (previousFailedSecond w) k).1) <$> elements (dom sv)
  ∧ (∀ k, previousFailedSecond (worldOf r) !! k
          = if decide (k ∈ dom sv)
            then Some (tripleResult sv ∅ (previousFailedSecond w) k).2
            else previousFailedSecond w !! k)
  ∧ (sv = ∅ → aggState (worldOf r)
              = (deleteExpiredSNIs Expiration (aggState w) (now_expire e)).1).
Proof.
  intros r cur. subst r. unfold accountAndAdvance.
  rewrite map_to_list_empty. cbn [addOldToSniSet groupStale foldl].
  rewrite (union_empty_l_L (dom sv)).
  pose proof (foldl_foldTriple_exact e sv (gset_to_gmap [] (dom sv)) (elements (dom sv))
                (previousFailedSecond w) (aggState w) [] (NoDup_elements _)) as [Hs Hp].
  assert (Hemp : sv = ∅ →
            (foldl (foldTriple e sv (gset_to_gmap [] (dom sv)))
                   (previousFailedSecond w, aggState w, []) (elements (dom sv))).1.2
            = aggState w).
  { intros ->. by rewrite dom_empty_L, elements_empty. }
  destruct (foldl _ _ _) as [[prev st] evs]. cbn [fst snd] in Hs, Hp, Hemp.
  pose proof (deleteExpiredSNIs_events Expiration st (now_expire e)) as Hd.
  assert (Hst : sv = ∅ → (deleteExpiredSNIs Expiration st (now_expire e)).1
                         = (deleteExpiredSNIs Expiration (aggState w) (now_expire e)).1).
  { intros H. by rewrite (Hemp H). }
  destruct (deleteExpiredSNIs _ _ _) as [st' dels]. cbn [fst snd] in Hd, Hst.
  assert (Hincs : sentIncs evs
                  = (λ k, (tripleResult sv ∅ (previousFailedSecond w) k).1)
                    <$> elements (dom sv)).
  { rewrite Hs. cbn [sentIncs flat_map app]. apply list_fmap_ext.
    intros i k _. by rewrite tripleResult_stale_empty. }
  assert (Hprev : ∀ k, prev !! k
                  = if decide (k ∈ dom sv)
                    then Some (tripleResult sv ∅ (previousFailedSecond w) k).2
                    else previousFailedSecond w !! k).
  { intros k. rewrite Hp. destruct (decide (k ∈ dom sv)) as [Hk|Hk].
    - rewrite decide_True by (by apply elem_of_elements).
      by rewrite tripleResult_stale_empty.
    - by rewrite decide_False by (by rewrite elem_of_elements). }
  fold cur.
  destruct (ticker_put_err e); unfold outcomeOf, worldOf, eventsOf; cbn [fst snd];
    rewrite !sentIncs_app, (sentIncs_no_send dels Hd), app_nil_l, app_nil_r;
    repeat split; done.
Qed.

Lemma tick_no_old (e : env) (w : world) :
  connections_err e = false →
  scanConnections (connectionMap w) (currentTickerClock w) = ∅ →
  tick Expiration e w =
  match getOldestStatsAndCleanup e (statsMap w) (u64 (currentTickerClock w + 1) mod 20) with
  | StatsPanic =>
      (Panicked,
       MkWorld (connectionMap w) (statsMap w) (tickerClockMap w) (currentTickerClock w)
         (previousFailedSecond w) (aggState w), [])
  | StatsErr stats =>
      (SkippedStats,
       MkWorld (connectionMap w) stats (tickerClockMap w) (currentTickerClock w)
         (previousFailedSecond w) (aggState w), [LogError "getting stats from map"])
  | StatsOk stats sv => accountAndAdvance Expiration e w (connectionMap w) stats ∅ sv []
  end.
Proof.
  intros He Hold. unfold tick. rewrite He, Hold, map_to_list_empty, map_difference_empty.
  done.
Qed.

End TickMore.

Section TickExtras.

Variable Expiration : Z.

(** X18: a tick that finds no old connection and reads its stats slot sends
    exactly one Inc per triple of the slot, computed by the folding rule
    from the slot's counts and the flag carried for the triple, records the
    new flag of each of these triples and leaves the flag of every other
    triple alone. *)
Theorem tick_one_inc_per_triple (e : env) (w : world)
    (stats : gmap Z (gmap string (Z * Z))) (out : gmap ConnKey (Z * Z)) :
  connections_err e = false →
  scanConnections (connectionMap w) (currentTickerClock w) = ∅ →
  getOldestStatsAndCleanup e (statsMap w) (u64 (currentTickerClock w + 1) mod 20)
    = StatsOk stats out →
  let r := tick Expiration e w in
  let prev := previousFailedSecond w in
  outcomeOf r = (if ticker_put_err e then ClockPutFailed else Committed)
  ∧ sentIncs (eventsOf r) = (λ k, (tripleResult out ∅ prev k).1) <$> elements (dom out)
  ∧ labels <$> sentIncs (eventsOf r) = elements (dom out)
  ∧ NoDup (labels <$> sentIncs (eventsOf r))
  ∧ (∀ k, previousFailedSecond (worldOf r) !! k
          = if decide (k ∈ dom out) then Some (tripleResult out ∅ prev k).2
            else prev !! k).
Proof.
  intros He Hold Hs r prev. subst r prev. rewrite tick_no_old, Hs by done.
  destruct (accountAndAdvance_no_old Expiration e w (connectionMap w) stats out)
    as (Ho & _ & _ & _ & _ & Hi & Hp & _).
  split; [done|]. split; [done|].
  assert (Hl : labels <$> sentIncs
                 (eventsOf (accountAndAdvance Expiration e w (connectionMap w) stats ∅ out []))
               = elements (dom out)).
  { rewrite Hi, <- list_fmap_compose. rewrite <- (list_fmap_id (elements (dom out))) at 2.
    apply list_fmap_ext. intros i k _. cbn. unfold tripleResult. cbn [fst].
    apply accountForConnections_labels. }
  split; [done|]. split; [|done]. rewrite Hl. apply NoDup_elements.
Qed.


(** X20: a tick never adds to the kernel tables, whatever fails: the
    connection table afterwards is part of the one before, the stats table
    keeps its slots, only the slot at (clock + 1) mod 20 can change and it
    only loses entries. *)
Theorem tick_tables_only_shrink (e : env) (w : world) :
  let w' := worldOf (tick Expiration e w) in
  let statsKey := u64 (currentTickerClock w + 1) mod 20 in
  connectionMap w' ⊆ connectionMap w
  ∧ dom (statsMap w') = dom (statsMap w)
  ∧ (∀ k, k ≠ statsKey → statsMap w' !! k = statsMap w !! k)
  ∧ (∀ k m', statsMap w' !! k = Some m' → ∃ m, statsMap w !! k = Some m ∧ m' ⊆ m).
Proof.
  intros w' statsKey. subst w'.
  assert (Hsame : dom (statsMap w) = dom (statsMap w)
                  ∧ (∀ k, k ≠ statsKey → statsMap w !! k = statsMap w !! k)
                  ∧ (∀ k m', statsMap w !! k = Some m' →
                             ∃ m, statsMap w !! k = Some m ∧ m' ⊆ m)).
  { split; [done|]. split; [done|]. intros k m' H. by exists m'. }
  unfold tick. destruct (connections_err e); [by split|]. fold statsKey.
  assert (Hc : connectionMap w ∖ scanConnections (connectionMap w) (currentTickerClock w)
               ⊆ connectionMap w) by by apply map_subseteq_difference_l.
  destruct (getOldestStatsAndCleanup_cases e (statsMap w) statsKey)
    as [->|[->|(innerMap & l & Hk & [->|[out ->]])]]; cbn [worldOf fst snd].
  - by split.
  - by split.
  - split; [done|]. by apply shrunk_slot.
  - match goal with
    | |- context [accountAndAdvance _ _ _ ?c ?s ?o ?v ?l] =>
        destruct (accountAndAdvance_kernel Expiration e w c s o v l) as [-> ->]
    end.
    split; [done|]. by apply shrunk_slot.
Qed.

Lemma foldTriple_withPutErr (b : bool) (e : env) (sv : gmap ConnKey (Z * Z))
    (stale : gmap ConnKey (list tupleData)) (keys : list ConnKey)
    (acc : gmap ConnKey bool * State * list event) :
  foldl (foldTriple (withPutErr b e) sv stale) acc keys
  = foldl (foldTriple e sv stale) acc keys.
Proof. revert acc. induction keys as [|k keys IH]; intros acc; [done|]. cbn [foldl]. apply IH. Qed.

(** X21: a failing write of the ticker clock changes nothing else of a
    tick that would have committed: the same Incs are sent, the carried
    flags, the SNI registry and the aggregator's own clock advance as they
    would, and only the shared clock keeps its old value, so the two clocks
    differ from then on. *)
Theorem tick_put_error (e : env) (w : world) :
  ticker_put_err e = true →
  outcomeOf (tick Expiration (withPutErr false e) w) = Committed →
  let r0 := tick Expiration (withPutErr false e) w in
  let r1 := tick Expiration e w in
  outcomeOf r1 = ClockPutFailed
  ∧ sentIncs (eventsOf r1) = sentIncs (eventsOf r0)
  ∧ last (eventsOf r1) = Some (LogError "updating tickerClockMap")
  ∧ connectionMap (worldOf r1) = connectionMap (worldOf r0)
  ∧ statsMap (worldOf r1) = statsMap (worldOf r0)
  ∧ previousFailedSecond (worldOf r1) = previousFailedSecond (worldOf r0)
  ∧ aggState (worldOf r1) = aggState (worldOf r0)
  ∧ currentTickerClock (worldOf r1) = u64 (currentTickerClock w + 1)
  ∧ tickerClockMap (worldOf r1) = tickerClockMap w.
Proof.
  intros Hp. unfold tick. cbn [withPutErr connections_err].
  destruct (connections_err e); [done|].
  change (getOldestStatsAndCleanup (withPutErr false e))
    with (getOldestStatsAndCleanup e).
  destruct (getOldestStatsAndCleanup e _ _) as [|stats|stats sv]; try done.
  unfold accountAndAdvance.
  destruct (addOldToSniSet _ _) as [sniSet|]; [|done].
  destruct (groupStale _ _) as [stale|]; [|done].
  rewrite foldTriple_withPutErr.
  destruct (foldl _ _ _) as [[prev st] evs].
  change (now_expire (withPutErr false e)) with (now_expire e).
  pose proof (deleteExpiredSNIs_events Expiration st (now_expire e)) as Hd.
  destruct (deleteExpiredSNIs _ _ _) as [st' dels].
  rewrite Hp. cbn [withPutErr ticker_put_err]. intros _.
  unfold outcomeOf, worldOf, eventsOf. cbn [fst snd].
  rewrite !sentIncs_app, !app_assoc, last_snoc. cbn. rewrite !app_nil_r.
  repeat split; done.
Qed.

(** X22: a tick panics in exactly two situations, both after the
    connection table has been read without error: an inner key of the
    stats slot has fewer than eight octets, or the slot has been read and
    at least one connection is old. *)
Theorem tick_panics_iff (e : env) (w : world) :
  let statsKey := u64 (currentTickerClock w + 1) mod 20 in
  outcomeOf (tick Expiration e w) = Panicked ↔
    connections_err e = false
    ∧ (getOldestStatsAndCleanup e (statsMap w) statsKey = StatsPanic
       ∨ (scanConnections (connectionMap w) (currentTickerClock w) ≠ ∅
          ∧ ∃ stats out,
              getOldestStatsAndCleanup e (statsMap w) statsKey = StatsOk stats out)).
Proof.
  intros statsKey. unfold tick. fold statsKey.
  destruct (connections_err e); [split; [done|by intros [? _]]|].
  destruct (getOldestStatsAndCleanup e (statsMap w) statsKey) as [|stats|stats sv].
  - split; [|done]. intros _. split; [done|by left].
  - split; [done|]. intros [_ [?|(_ & ? & ? & ?)]]; done.
  - match goal with
    | |- context [accountAndAdvance _ _ _ ?c ?s ?o ?v ?l] =>
        destruct (accountAndAdvance_inv Expiration e w c s o v l)
          as [[Hold ->]|(Hold & prev & st & new & _ & _ & _ & ->)]
    end.
    + split; [|done]. intros _. split; [done|]. right. split; [done|]. by exists stats, sv.
    + split.
      * by destruct (ticker_put_err e).
      * intros [_ [?|(Hne & _)]]; done.
Qed.

End TickExtras.

Lemma tick_one_inc_per_triple_witness :
  sentIncs (eventsOf (tick five_minutes env_ok world_reject))
  = (λ k, (tripleResult {[ triple_b := (0, 1) ]} ∅ ∅ k).1)
    <$> elements (dom ({[ triple_b := (0, 1) ]} : gmap ConnKey (Z * Z))).
Proof.
  destruct (tick_one_inc_per_triple five_minutes env_ok world_reject
              (<[1 := ∅]> (statsMap world_reject)) {[ triple_b := (0, 1) ]})
    as (_ & H & _).
  - reflexivity.
  - vm_compute. reflexivity.
  - vm_compute. reflexivity.
  - exact H.
Defined.


Lemma tick_put_error_witness :
  outcomeOf (tick five_minutes (withPutErr true env_ok) world_reject) = ClockPutFailed
  ∧ currentTickerClock (worldOf (tick five_minutes (withPutErr true env_ok) world_reject))
    = u64 (40 + 1)
  ∧ tickerClockMap (worldOf (tick five_minutes (withPutErr true env_ok) world_reject)) = 40.
Proof.
  destruct (tick_put_error five_minutes (withPutErr true env_ok) world_reject)
    as (H1 & _ & _ & _ & _ & _ & _ & H2 & H3).
  - reflexivity.
  - vm_compute. reflexivity.
  - split; [exact H1|]. split; [exact H2|exact H3].
Defined.

(** ** Twenty ticks *)

Lemma isConnectionOld_mono (tfp cur cur' : Z) :
  cur ≤ cur' → isConnectionOld tfp cur = true → isConnectionOld tfp cur' = true.
Proof. rewrite !isConnectionOld_spec. lia. Qed.

Lemma scanConnections_empty (conns : gmap tuple_key_t tupleData) (cur : Z) :
  (∀ k d, conns !! k = Some d → isConnectionOld (tickerClockFirstPacket d) cur = false) →
  scanConnections conns cur = ∅.
Proof.
  intros H. unfold scanConnections. apply map_empty_filter_2. intros k d Hk. cbn.
  by rewrite (H k d Hk).
Qed.

Lemma getOldestStatsAndCleanup_healthy (e : env) (stats : gmap Z (gmap string (Z * Z)))
    (statsKey : Z) (innerMap : gmap string (Z * Z)) :
  stats_lookup_err e = false → stats_iter_err e = None →
  stats !! statsKey = Some innerMap →
  (∀ innerKey, is_Some (innerMap !! innerKey) → (8 ≤ String.length innerKey)%nat) →
  ∃ out, getOldestStatsAndCleanup e stats statsKey = StatsOk (<[statsKey := ∅]> stats) out.
Proof.
  intros Hl Hi Hk Hlen.
  assert (Hall : Forall (λ kv : string * (Z * Z), (8 ≤ String.length kv.1)%nat)
                        (map_to_list innerMap)).
  { apply Forall_forall. intros [k v] Hkv%elem_of_map_to_list. apply Hlen. by eexists. }
  destruct (collectInner_spec _ Hall) as (out & Hout & _). exists out.
  unfold getOldestStatsAndCleanup, innerEntries. rewrite Hl, Hk, Hi, Hout.
  rewrite deleteInner_all. rewrite bool_decide_eq_false_2; [done|]. by intros [? ?].
Qed.

Section Run.

Variable Expiration : Z.

(** One healthy tick without an old connection. *)
Lemma tick_healthy_step (e : env) (w : world) (innerMap : gmap string (Z * Z)) :
  healthy e →
  (∀ k d, connectionMap w !! k = Some d →
          isConnectionOld (tickerClockFirstPacket d) (currentTickerClock w) = false) →
  statsMap w !! (u64 (currentTickerClock w + 1) mod 20) = Some innerMap →
  (∀ innerKey, is_Some (innerMap !! innerKey) → (8 ≤ String.length innerKey)%nat) →
  let r := tick Expiration e w in
  outcomeOf r = Committed
  ∧ connectionMap (worldOf r) = connectionMap w
  ∧ statsMap (worldOf r) = <[u64 (currentTickerClock w + 1) mod 20 := ∅]> (statsMap w)
  ∧ currentTickerClock (worldOf r) = u64 (currentTickerClock w + 1).
Proof.
  intros (He & Hl & Hi & Hp) Hfresh Hslot Hlen r. subst r.
  destruct (getOldestStatsAndCleanup_healthy e _ _ _ Hl Hi Hslot Hlen) as [out Hs].
  rewrite tick_no_old, Hs by (done || by apply scanConnections_empty).
  destruct (accountAndAdvance_no_old Expiration e w (connectionMap w)
              (<[u64 (currentTickerClock w + 1) mod 20 := ∅]> (statsMap w)) out)
    as (Ho & Hc & Hst & Hcl & _).
  rewrite Hp in Ho. done.
Qed.

Lemma run_healthy (es : list env) (w : world) :
  Forall healthy es →
  0 ≤ currentTickerClock w →
  currentTickerClock w + Z.of_nat (length es) < 2 ^ 64 →
  (∀ k d, connectionMap w !! k = Some d →
          isConnectionOld (tickerClockFirstPacket d)
            (currentTickerClock w + Z.of_nat (length es) - 1) = false) →
  (∀ i, 1 ≤ i ≤ Z.of_nat (length es) →
        is_Some (statsMap w !! ((currentTickerClock w + i) mod 20))) →
  (∀ k m innerKey, statsMap w !! k = Some m → is_Some (m !! innerKey) →
                   (8 ≤ String.length innerKey)%nat) →
  let r := run Expiration es w in
  Forall (λ oe, oe.1 = Committed) r.1
  ∧ length r.1 = length es
  ∧ currentTickerClock r.2 = currentTickerClock w + Z.of_nat (length es)
  ∧ connectionMap r.2 = connectionMap w
  ∧ (∀ i, 1 ≤ i ≤ Z.of_nat (length es) →
          statsMap r.2 !! ((currentTickerClock w + i) mod 20) = Some ∅)
  ∧ (∀ k m', statsMap r.2 !! k = Some m' → ∃ m, statsMap w !! k = Some m ∧ m' ⊆ m)
  ∧ (∀ k, is_Some (statsMap w !! k) → is_Some (statsMap r.2 !! k)).
Proof.
  revert w. induction es as [|e es IH]; intros w Hes H0 Hmax Hfresh Hslots Hkeys r; subst r.
  - cbn. repeat split; first [done | lia | (intros k m' H; by exists m')].
  - apply Forall_cons in Hes as [He Hes]. cbn [length] in *.
    set (cur := currentTickerClock w) in *.
    assert (Hu : u64 (cur + 1) = cur + 1) by (unfold u64; rewrite Z.mod_small; lia).
    destruct (Hslots 1) as [innerMap Hslot]; [lia|].
    destruct (tick_healthy_step e w innerMap He) as (Ho & Hc & Hst & Hcl).
    { intros k d Hk. fold cur.
      destruct (isConnectionOld (tickerClockFirstPacket d) cur) eqn:E; [|done].
      assert (Hle : cur ≤ cur + Z.of_nat (S (length es)) - 1) by lia.
      pose proof (isConnectionOld_mono _ _ _ Hle E) as H1.
      by rewrite (Hfresh k d Hk) in H1. }
    { fold cur. by rewrite Hu. }
    { intros ik Hik. by apply (Hkeys _ innerMap ik Hslot). }
    fold cur in Hst, Hcl. rewrite Hu in Hst, Hcl.
    cbn [run]. unfold outcomeOf, worldOf in *.
    destruct (tick Expiration e w) as [[o w1] evs]. cbn [fst snd] in *. subst o.
    assert (Hsub : ∀ k m', statsMap w1 !! k = Some m' →
                           ∃ m, statsMap w !! k = Some m ∧ m' ⊆ m).
    { intros k m'. rewrite Hst, lookup_insert. case_decide as Hk.
      - intros [= <-]. subst k. exists innerMap. split; [done|]. apply map_empty_subseteq.
      - intros H. by exists m'. }
    destruct (IH w1) as (Hall & Hlen & Hclk & Hconn & Hemp & Hsub' & Hdom).
    + done.
    + rewrite Hcl. lia.
    + rewrite Hcl. lia.
    + rewrite Hc, Hcl. intros k d Hk. rewrite <- (Hfresh k d Hk). f_equal. lia.
    + intros i Hi. rewrite Hcl, Hst.
      replace (cur + 1 + i) with (cur + (i + 1)) by lia.
      destruct (Hslots (i + 1)) as [m Hm]; [lia|].
      rewrite lookup_insert. case_decide; by eexists.
    + intros k m ik Hk Hik. destruct (Hsub k m Hk) as (m0 & Hm0 & Hle).
      apply (Hkeys k m0 ik Hm0). destruct Hik as [v Hv].
      exists v. by eapply lookup_weaken.
    + destruct (run Expiration es w1) as [rs w2]. cbn [fst snd] in *.
      split; [by constructor|]. split; [cbn [length]; by rewrite Hlen|].
      split; [rewrite Hclk, Hcl; lia|]. split; [by rewrite Hconn|]. split; [|split].
      * intros i Hi. destruct (decide (i = 1)) as [->|Hi1].
        -- assert (Hw1 : statsMap w1 !! ((cur + 1) mod 20) = Some ∅)
             by (by rewrite Hst, lookup_insert_eq).
           destruct (Hdom _ (ex_intro _ _ Hw1)) as [m2 Hm2].
           destruct (Hsub' _ _ Hm2) as (m1 & Hm1 & Hle).
           assert (m1 = ∅) as -> by congruence.
           rewrite Hm2. f_equal. apply map_eq. intros j. rewrite lookup_empty.
           destruct (m2 !! j) eqn:E; [|done].
           by apply (lookup_weaken _ _ _ _ E) in Hle.
        -- specialize (Hemp (i - 1)). rewrite Hcl in Hemp.
           replace (cur + 1 + (i - 1)) with (cur + i) in Hemp by lia. apply Hemp. lia.
      * intros k m' Hk. destruct (Hsub' k m' Hk) as (m1 & Hm1 & Hle1).
        destruct (Hsub k m1 Hm1) as (m0 & Hm0 & Hle0). exists m0. split; [done|].
        by etrans.
      * intros k Hk. apply Hdom. rewrite Hst, lookup_insert. by case_decide.
Qed.

(** X23: over twenty consecutive ticks in which no map operation fails and
    no connection grows old, every one of the twenty stats slots is consumed
    once: all twenty ticks commit, the clock advances by 20, the connection
    table is untouched and every slot ends empty. *)
Theorem run_consumes_every_slot (es : list env) (w : world) :
  length es = 20%nat →
  Forall healthy es →
  0 ≤ currentTickerClock w →
  currentTickerClock w + 20 < 2 ^ 64 →
  (∀ k d, connectionMap w !! k = Some d →
          isConnectionOld (tickerClockFirstPacket d) (currentTickerClock w + 19) = false) →
  (∀ k, 0 ≤ k < 20 → is_Some (statsMap w !! k)) →
  (∀ k m innerKey, statsMap w !! k = Some m → is_Some (m !! innerKey) →
                   (8 ≤ String.length innerKey)%nat) →
  let r := run Expiration es w in
  Forall (λ oe, oe.1 = Committed) r.1
  ∧ length r.1 = 20%nat
  ∧ currentTickerClock r.2 = currentTickerClock w + 20
  ∧ connectionMap r.2 = connectionMap w
  ∧ (∀ k, 0 ≤ k < 20 → statsMap r.2 !! k = Some ∅).
Proof.
  intros Hlen Hes H0 Hmax Hfresh Hslots Hkeys r. subst r.
  destruct (run_healthy es w) as (Hall & Hl & Hclk & Hconn & Hemp & _); try done.
  - rewrite Hlen. lia.
  - rewrite Hlen. intros k d Hk. rewrite <- (Hfresh k d Hk). f_equal. lia.
  - intros i Hi. apply Hslots. apply Z.mod_pos_bound. lia.
  - rewrite Hlen in *. split; [done|]. split; [done|]. split; [rewrite Hclk; lia|].
    split; [done|]. intros k Hk.
    set (j := (k - currentTickerClock w) mod 20).
    assert (Hj : 0 ≤ j < 20) by (apply Z.mod_pos_bound; lia).
    assert (Hkj : (currentTickerClock w + j) mod 20 = k).
    { subst j. rewrite Zplus_mod_idemp_r.
      replace (currentTickerClock w + (k - currentTickerClock w)) with k by lia.
      apply Z.mod_small. lia. }
    destruct (decide (j = 0)) as [Hj0|Hj0].
    + rewrite <- Hkj, Hj0.
      replace ((currentTickerClock w + 0) mod 20)
        with ((currentTickerClock w + 20) mod 20).
      * apply Hemp. lia.
      * replace (currentTickerClock w + 20) with (currentTickerClock w + 0 + 1 * 20) by lia.
        by rewrite Z.mod_add by lia.
    + rewrite <- Hkj. apply Hemp. lia.
Qed.

End Run.

Lemma run_consumes_every_slot_witness :
  statsMap (run five_minutes (replicate 20 env_ok) world_reject).2 !! 1 = Some ∅
  ∧ currentTickerClock (run five_minutes (replicate 20 env_ok) world_reject).2 = 40 + 20.
Proof.
  destruct (run_consumes_every_slot five_minutes (replicate 20 env_ok) world_reject)
    as (_ & _ & Hc & _ & H).
  - reflexivity.
  - apply Forall_replicate. repeat split.
  - vm_compute. discriminate.
  - vm_compute. reflexivity.
  - intros k d Hk. vm_compute in Hk. discriminate.
  - intros k Hk.
    assert (Hc : k = 0 ∨ k = 1 ∨ k = 2 ∨ k = 3 ∨ k = 4 ∨ k = 5 ∨ k = 6 ∨ k = 7 ∨ k = 8
                 ∨ k = 9 ∨ k = 10 ∨ k = 11 ∨ k = 12 ∨ k = 13 ∨ k = 14 ∨ k = 15 ∨ k = 16
                 ∨ k = 17 ∨ k = 18 ∨ k = 19) by lia.
    repeat (destruct Hc as [->|Hc]; [vm_compute; eexists; reflexivity|]).
    subst k. vm_compute. eexists. reflexivity.
  - intros k m innerKey Hm [v Hv]. unfold world_reject, statsWith in Hm. cbn [statsMap] in Hm.
    apply lookup_insert_Some in Hm as [[_ <-]|[_ Hm]].
    + apply lookup_singleton_Some in Hv as [<- _]. vm_compute. lia.
    + apply elem_of_list_to_map_2, list_elem_of_fmap in Hm as (i & [= _ ->] & _).
      by rewrite lookup_empty in Hv.
  - split; [apply H; lia|exact Hc].
Defined.

(** ** The layout of an inner stats key *)

Lemma before_nul_app_nul (name rest : string) :
  before_nul name = name → before_nul (name +:+ String zero rest) = name.
Proof.
  induction name as [|c name IH].
  - intros _. change ("" +:+ String zero rest) with (String zero rest).
    cbn [before_nul]. by rewrite bool_decide_eq_true_2.
  - change (String c name +:+ String zero rest) with (String c (name +:+ String zero rest)).
    cbn [before_nul]. case_bool_decide; [done|]. intros [= Hn]. by rewrite IH.
Qed.

Lemma append_String (c : ascii) (s t : string) : String c s +:+ t = String c (s +:+ t).
Proof. done. Qed.

Lemma append_EmptyString (t : string) : "" +:+ t = t.
Proof. done. Qed.

(** X24: an inner key made of four octets of source address, four of
    destination address and an SNI yields the two addresses in dotted
    decimal and the SNI up to its first NUL octet: the padding after the
    name is dropped, and a name that fills the key to its end is taken
    whole. *)
Theorem innerKeyToConnKey_layout (a b name rest : string) :
  String.length a = 4%nat → String.length b = 4%nat → before_nul name = name →
  innerKeyToConnKey (a +:+ b +:+ name +:+ String zero rest)
  = Some (MkConnKey (IP_String (octets a)) (IP_String (octets b)) name)
  ∧ innerKeyToConnKey (a +:+ b +:+ name)
    = Some (MkConnKey (IP_String (octets a)) (IP_String (octets b)) name).
Proof.
  intros Ha Hb Hname.
  destruct a as [|a1 [|a2 [|a3 [|a4 [|? ?]]]]]; try discriminate Ha.
  destruct b as [|b1 [|b2 [|b3 [|b4 [|? ?]]]]]; try discriminate Hb.
  unfold innerKeyToConnKey. rewrite !append_String, !append_EmptyString.
  cbn [String.length].
  split.
  - destruct (Z.ltb_spec (Z.of_nat (S (S (S (S (S (S (S (S
                (String.length (name +:+ String zero rest))))))))))) 8) as [|_]; [lia|].
    cbn [substring Nat.sub].
    by rewrite !Nat.sub_0_r, !substring_0_length, !substring_0_0, before_nul_app_nul.
  - destruct (Z.ltb_spec (Z.of_nat (S (S (S (S (S (S (S (S
                (String.length name)))))))))) 8) as [|_]; [lia|].
    cbn [substring Nat.sub].
    by rewrite !Nat.sub_0_r, !substring_0_length, !substring_0_0, Hname.
Qed.

Lemma innerKeyToConnKey_layout_witness :
  innerKeyToConnKey key_b = Some triple_b.
Proof.
  destruct (innerKeyToConnKey_layout
              (String (ascii_of_nat 1) (String (ascii_of_nat 2) (String (ascii_of_nat 3)
                 (String (ascii_of_nat 4) EmptyString))))
              (String (ascii_of_nat 10) (String (ascii_of_nat 0) (String (ascii_of_nat 0)
                 (String (ascii_of_nat 255) EmptyString))))
              "b" (String zero EmptyString)) as [H _].
  - reflexivity.
  - reflexivity.
  - reflexivity.
  - exact H.
Defined.
